(** * LinkedIn AI Reply Assistant: usage ledger, generation gateway,
      settings store and button injection.

    A shallow embedding of the TypeScript sources

      - [src/types/index.ts]     (records, [DEFAULT_SETTINGS])
      - [src/utils/validation.ts] ([validateSettings], [validatePostText])
      - [src/utils/storage.ts]   ([getSettings], [saveSettings], [getUsage],
                                  [saveUsage], [resetUsageIfExpired])
      - [src/utils/rateLimit.ts] ([trackUsage], [getTimeUntilReset])
      - [src/serviceWorker.ts]   ([handleGenerateReply])
      - [src/utils/dom.ts], [src/components/Button.ts],
        [src/contentScript.ts]   ([injectButtons] and what it calls)

    and, in a second part, of the rest of [rateLimit.ts] and
    [storage.ts], the popup's tone change, the message listener of the
    service worker, the text functions of [validation.ts], the states of
    the button and [src/utils/typing.ts].

    Conventions.  JavaScript numbers are integers here ([Z]); the
    [typeof x !== "number" || isNaN(x)] guards of the validators therefore
    have no counterpart.  Strings are [string]s of 8-bit characters and
    [.length] counts them.  Asynchronous code runs one handler at a
    time, so a promise is a computation in the state-and-exception monad
    [M] over the [World]: the two storage areas, the clock, and the
    behaviour of everything the extension does not control. *)

From Stdlib Require Import ZArith String Ascii List Lia DecimalString.
From stdpp Require Import base list.
Import ListNotations.

#[local] Open Scope string_scope.
#[local] Open Scope Z_scope.

(** ** JavaScript strings and numbers *)

Module Js.

(** White space removed by [String.prototype.trim], among 8-bit
    characters: TAB, LF, VT, FF, CR and SPACE. *)
Definition is_space (c : ascii) : bool :=
  let n := nat_of_ascii c in
  ((9 <=? n) && (n <=? 13))%nat || (n =? 32)%nat.

Fixpoint trimStart (s : string) : string :=
  match s with
  | String c s' => if is_space c then trimStart s' else s
  | EmptyString => EmptyString
  end.

Fixpoint trimEnd (s : string) : string :=
  match s with
  | String c s' =>
      match trimEnd s' with
      | EmptyString => if is_space c then EmptyString else String c EmptyString
      | r => String c r
      end
  | EmptyString => EmptyString
  end.

Definition trim (s : string) : string := trimEnd (trimStart s).

(** [s.length] *)
Definition length (s : string) : Z := Z.of_nat (String.length s).

(** [s.includes(needle)] *)
Fixpoint includes (needle s : string) : bool :=
  String.prefix needle s ||
  match s with
  | String _ s' => includes needle s'
  | EmptyString => false
  end.

(** [array.includes(x)] on an array of strings *)
Definition array_includes (xs : list string) (x : string) : bool :=
  existsb (String.eqb x) xs.

(** [`${n}`] for an integer [n] *)
Definition num_to_string (z : Z) : string :=
  NilZero.string_of_int (Z.to_int z).

(** [Math.floor(a / b)] for integers [a], [b] *)
Definition floor_div (a b : Z) : Z := a / b.

(** [a % b]: the remainder takes the sign of the dividend *)
Definition remainder (a b : Z) : Z := Z.rem a b.

(** What a [throw] can carry: an [Error] object with its message, or any
    other value. *)
Inductive exn : Type :=
| Error (message : string)
| NonError.

Inductive result (A : Type) : Type :=
| Ok (a : A)
| Throw (e : exn).
#[global] Arguments Ok {A} a.
#[global] Arguments Throw {A} e.


End Js.
Import Js.

(** ** [src/types/index.ts] *)

Record UserSettings : Type := mkUserSettings {
  apiKey : string;
  tone : string;
  maxLength : Z;
  defaultAction : string;
  rateLimit : Z;
  stealthMode : bool
}.

Definition DEFAULT_SETTINGS : UserSettings :=
  {| apiKey := EmptyString;
     tone := "professional";
     maxLength := 500;
     defaultAction := "insert";
     rateLimit := 50;
     stealthMode := true |}.

(** [Partial<UserSettings>], which is also the shape of the object kept
    under the key ['settings']: a field is present or [undefined]. *)
Record PartialSettings : Type := mkPartialSettings {
  p_apiKey : option string;
  p_tone : option string;
  p_maxLength : option Z;
  p_defaultAction : option string;
  p_rateLimit : option Z;
  p_stealthMode : option bool
}.

(** A [UserSettings] value seen as a [Partial<UserSettings>]. *)
Definition as_partial (s : UserSettings) : PartialSettings :=
  {| p_apiKey := Some (apiKey s);
     p_tone := Some (tone s);
     p_maxLength := Some (maxLength s);
     p_defaultAction := Some (defaultAction s);
     p_rateLimit := Some (rateLimit s);
     p_stealthMode := Some (stealthMode s) |}.

Definition defined {A} (field : option A) : bool :=
  match field with Some _ => true | None => false end.

Definition is_full (p : PartialSettings) : bool :=
  defined (p_apiKey p) && defined (p_tone p) && defined (p_maxLength p)
  && defined (p_defaultAction p) && defined (p_rateLimit p)
  && defined (p_stealthMode p).

(** [{ ...base, ...over }]: the fields of [over] that are present win. *)
Definition spread (base : UserSettings) (over : PartialSettings) : UserSettings :=
  {| apiKey := default (apiKey base) (p_apiKey over);
     tone := default (tone base) (p_tone over);
     maxLength := default (maxLength base) (p_maxLength over);
     defaultAction := default (defaultAction base) (p_defaultAction over);
     rateLimit := default (rateLimit base) (p_rateLimit over);
     stealthMode := default (stealthMode base) (p_stealthMode over) |}.

Record UsageData : Type := mkUsageData {
  count : Z;
  resetDate : Z;
  limit : Z
}.

Record GenerateReplyResponse : Type := mkResponse {
  success : bool;
  reply : option string;
  error : option string;
  usageCount : option Z;
  rateLimitReached : option bool
}.

(** ** [src/utils/validation.ts] *)

Definition validTones : list string :=
  ["polite"; "professional"; "friendly"; "concise"].

Definition validActions : list string := ["insert"; "copy"].

Definition guard (reject : bool) (message : string) : result unit :=
  if reject then Throw (Error message) else Ok tt.

Definition when_defined {A} (field : option A) (check : A -> result unit)
  : result unit :=
  match field with
  | Some v => check v
  | None => Ok tt
  end.

Definition seq_checks (a b : result unit) : result unit :=
  match a with
  | Ok _ => b
  | Throw e => Throw e
  end.

#[local] Infix ">>" := seq_checks (at level 61, left associativity).

Definition validateSettings (settings : PartialSettings) : result unit :=
  when_defined (p_apiKey settings) (fun k =>
    guard ((Js.length k >? 0) && (Js.length k <? 10))
          "API key appears to be invalid (too short)")
  >> when_defined (p_tone settings) (fun t =>
    guard (negb (array_includes validTones t))
          "Invalid tone. Must be one of: polite, professional, friendly, concise")
  >> when_defined (p_maxLength settings) (fun n =>
    guard ((n <? 100) || (n >? 1000))
          "Max length must be between 100 and 1000 characters")
  >> when_defined (p_defaultAction settings) (fun a =>
    guard (negb (array_includes validActions a))
          "Invalid default action. Must be one of: insert, copy")
  >> when_defined (p_rateLimit settings) (fun n =>
    guard ((n <? 1) || (n >? 10000))
          "Rate limit must be between 1 and 10000").

Definition validatePostText (text : string) : result unit :=
  guard (String.eqb text EmptyString) "Post text must be a non-empty string"
  >> (let trimmed := trim text in
      guard (Js.length trimmed =? 0) "Post text cannot be empty"
      >> guard (Js.length trimmed <? 5)
               "Post text is too short (minimum 5 characters)"
      >> guard (Js.length trimmed >? 10000)
               "Post text is too long (maximum 10000 characters)").

(** ** The world outside the code

    [chrome.storage.sync] holds the settings object under ['settings'],
    [chrome.storage.local] the usage record under ['usage'].  What the
    extension cannot decide is given by oracles.  [now_at k] is what the
    [k]-th call of [Date.now()] returns.  Storage accesses and generator
    calls are numbered together in the order they are made: [fault_at k]
    is the exception raised when operation [k] is a storage access
    ([None]: it succeeds), and [gemini_at k] is what the generator answers
    when operation [k] is a call to it.  The [trace] records every storage
    access attempted and every generator call made. *)

Inductive Event : Type :=
| SyncGet
| SyncSet (settings : PartialSettings)
| LocalGet
| LocalSet (usage : UsageData)
| Generate (text : string) (settings : UserSettings).

Record World : Type := mkWorld {
  sync_settings : option PartialSettings;
  local_usage : option UsageData;
  clock_reads : nat;
  io_ops : nat;
  now_at : nat -> Z;
  fault_at : nat -> option exn;
  gemini_at : nat -> string -> UserSettings -> result string;
  trace : list Event
}.

(** The value the next [Date.now()] returns. *)
Definition time (w : World) : Z := now_at w (clock_reads w).

Definition tick_clock (w : World) : World :=
  {| sync_settings := sync_settings w; local_usage := local_usage w;
     clock_reads := S (clock_reads w); io_ops := io_ops w;
     now_at := now_at w; fault_at := fault_at w; gemini_at := gemini_at w;
     trace := trace w |}.

Definition log_op (ev : Event) (w : World) : World :=
  {| sync_settings := sync_settings w; local_usage := local_usage w;
     clock_reads := clock_reads w; io_ops := S (io_ops w);
     now_at := now_at w; fault_at := fault_at w; gemini_at := gemini_at w;
     trace := trace w ++ [ev] |}.

Definition write_sync (s : PartialSettings) (w : World) : World :=
  {| sync_settings := Some s; local_usage := local_usage w;
     clock_reads := clock_reads w; io_ops := io_ops w;
     now_at := now_at w; fault_at := fault_at w; gemini_at := gemini_at w;
     trace := trace w |}.

Definition write_local (u : UsageData) (w : World) : World :=
  {| sync_settings := sync_settings w; local_usage := Some u;
     clock_reads := clock_reads w; io_ops := io_ops w;
     now_at := now_at w; fault_at := fault_at w; gemini_at := gemini_at w;
     trace := trace w |}.

(** ** Promises: state and exceptions *)

Definition M (A : Type) : Type := World -> result A * World.

Definition ret {A} (a : A) : M A := fun w => (Ok a, w).

Definition throw {A} (e : exn) : M A := fun w => (Throw e, w).

Definition bind {A B} (m : M A) (k : A -> M B) : M B :=
  fun w =>
    match m w with
    | (Ok a, w') => k a w'
    | (Throw e, w') => (Throw e, w')
    end.

(** [try { m } catch (e) { handler(e) }] *)
Definition try_catch {A} (m : M A) (handler : exn -> M A) : M A :=
  fun w =>
    match m w with
    | (Ok a, w') => (Ok a, w')
    | (Throw e, w') => handler e w'
    end.

(** A synchronous function that returns or throws. *)
Definition lift {A} (r : result A) : M A := fun w => (r, w).

Declare Scope promise_scope.
Delimit Scope promise_scope with promise.
Notation "'await' x <- m ; k" := (bind m (fun x => k))
  (at level 10, x name, m at level 100, k at level 200,
   format "'[v' 'await'  x  <-  m ; '/' k ']'") : promise_scope.
Notation "'run' m ; k" := (bind m (fun _ => k))
  (at level 10, m at level 100, k at level 200,
   format "'[v' 'run'  m ; '/' k ']'") : promise_scope.
#[local] Open Scope promise_scope.

(** [Date.now()] *)
Definition date_now : M Z := fun w => (Ok (time w), tick_clock w).

(** One storage operation: it is logged, and it raises what the fault
    oracle says or else takes effect. *)
Definition storage_op {A} (ev : Event) (effect : World -> A * World) : M A :=
  fun w =>
    match fault_at w (io_ops w) with
    | Some e => (Throw e, log_op ev w)
    | None => let (a, w') := effect (log_op ev w) in (Ok a, w')
    end.

(** [chrome.storage.sync.get('settings')], giving [data.settings] *)
Definition storage_sync_get : M (option PartialSettings) :=
  storage_op SyncGet (fun w => (sync_settings w, w)).

(** [chrome.storage.sync.set({ settings })] *)
Definition storage_sync_set (settings : PartialSettings) : M unit :=
  storage_op (SyncSet settings) (fun w => (tt, write_sync settings w)).

(** [chrome.storage.local.get('usage')], giving [data.usage] *)
Definition storage_local_get : M (option UsageData) :=
  storage_op LocalGet (fun w => (local_usage w, w)).

(** [chrome.storage.local.set({ usage })] *)
Definition storage_local_set (usage : UsageData) : M unit :=
  storage_op (LocalSet usage) (fun w => (tt, write_local usage w)).

(** [callGeminiAPI(text, settings)] of [utils/api.ts]: the external
    generator, text and settings in, text or a failure out.  It touches
    neither storage area. *)
Definition callGeminiAPI (text : string) (settings : UserSettings) : M string :=
  fun w => (gemini_at w (io_ops w) text settings, log_op (Generate text settings) w).

(** ** [src/utils/storage.ts] *)

Definition DAY : Z := 24 * 60 * 60 * 1000.

Definition getSettings : M UserSettings :=
  try_catch
    (await data <- storage_sync_get;
     ret (match data with
          | Some stored => spread DEFAULT_SETTINGS stored
          | None => DEFAULT_SETTINGS
          end))
    (fun _ => ret DEFAULT_SETTINGS).

Definition saveSettings (settings : UserSettings) : M unit :=
  try_catch
    (run lift (validateSettings (as_partial settings));
     storage_sync_set (as_partial settings))
    (fun _ => throw (Error "Failed to save settings")).

Definition getUsage : M UsageData :=
  try_catch
    (await data <- storage_local_get;
     match data with
     | None =>
         await now <- date_now;
         ret {| count := 0; resetDate := now + DAY;
                limit := rateLimit DEFAULT_SETTINGS |}
     | Some usage => ret usage
     end)
    (fun _ =>
       await now <- date_now;
       ret {| count := 0; resetDate := now + DAY;
              limit := rateLimit DEFAULT_SETTINGS |}).

Definition saveUsage (usage : UsageData) : M unit :=
  try_catch
    (storage_local_set usage)
    (fun _ => throw (Error "Failed to save usage data")).

Definition resetUsageIfExpired : M UsageData :=
  try_catch
    (await usage <- getUsage;
     await now <- date_now;
     if now >=? resetDate usage then
       await settings <- getSettings;
       let resetUsage :=
         {| count := 0; resetDate := now + DAY; limit := rateLimit settings |} in
       run saveUsage resetUsage;
       ret resetUsage
     else ret usage)
    (fun error => throw error).

(** ** [src/utils/rateLimit.ts] *)

(** The body of [getTimeUntilReset] once [Date.now()] has returned [now]. *)
Definition timeUntilResetAt (resetDate now : Z) : string :=
  let diff := resetDate - now in
  if diff <=? 0 then "now"
  else
    let hours := floor_div diff (1000 * 60 * 60) in
    let minutes := floor_div (remainder diff (1000 * 60 * 60)) (1000 * 60) in
    if hours >? 0 then num_to_string hours ++ "h " ++ num_to_string minutes ++ "m"
    else if minutes >? 0 then num_to_string minutes ++ "m"
    else
      let seconds := floor_div diff 1000 in
      num_to_string seconds ++ "s".

Definition getTimeUntilReset (resetDate : Z) : M string :=
  await now <- date_now;
  ret (timeUntilResetAt resetDate now).

Definition rateLimitMessage (timeUntilReset : string) (usage : UsageData) : string :=
  "Rate limit reached. Resets in " ++ timeUntilReset ++ ". Current usage: "
  ++ num_to_string (count usage) ++ "/" ++ num_to_string (limit usage).

Definition increment (usage : UsageData) : UsageData :=
  {| count := count usage + 1; resetDate := resetDate usage; limit := limit usage |}.

Definition trackUsage : M UsageData :=
  try_catch
    (await usage <- resetUsageIfExpired;
     if count usage >=? limit usage then
       await timeUntilReset <- getTimeUntilReset (resetDate usage);
       throw (Error (rateLimitMessage timeUntilReset usage))
     else
       let usage := increment usage in
       run saveUsage usage;
       ret usage)
    (fun error => throw error).

(** ** [src/serviceWorker.ts] *)

Record GenerateReplyRequest : Type := mkRequest {
  postText : string;
  authorName : option string;
  postDate : option string
}.

Definition errorMessage (error : exn) : string :=
  match error with
  | Error message => message
  | NonError => "Unknown error occurred"
  end.

Definition isRateLimitError (error : exn) : bool :=
  match error with
  | Error message => includes "Rate limit" message
  | NonError => false
  end.

Definition apiKeyMissing (settings : UserSettings) : bool :=
  String.eqb (apiKey settings) EmptyString || (Js.length (trim (apiKey settings)) =? 0).

Section Gateway.

(** [sanitizePostText] of [utils/api.ts] is a pure function on strings;
    nothing below depends on what it computes. *)
Variable sanitizePostText : string -> string.

(** The [try] block of [handleGenerateReply]. *)
Definition generateReply (request : GenerateReplyRequest)
  : M GenerateReplyResponse :=
  run lift (validatePostText (postText request));
  let sanitizedText := sanitizePostText (postText request) in
  await settings <- getSettings;
  if apiKeyMissing settings then throw (Error "API key not configured")
  else
    await usage <- try_catch trackUsage (fun error => throw error);
    await reply <- callGeminiAPI sanitizedText settings;
    await _ <- date_now;
    ret {| success := true; reply := Some reply; error := None;
           usageCount := Some (count usage);
           rateLimitReached := Some false |}.

Definition handleGenerateReply (request : GenerateReplyRequest)
  : M GenerateReplyResponse :=
  await _ <- date_now;
  try_catch
    (generateReply request)
    (fun error =>
       await _ <- date_now;
       ret {| success := false; reply := None;
              error := Some (errorMessage error);
              usageCount := None;
              rateLimitReached := Some (isRateLimitError error) |}).

(** The response built by the [catch] block. *)
Definition failure (error : exn) : GenerateReplyResponse :=
  {| success := false; reply := None; error := Some (errorMessage error);
     usageCount := None; rateLimitReached := Some (isRateLimitError error) |}.

(** What [generateReply] does once the input and the credential have
    passed: [settings] are the loaded settings and [w1] the world in which
    the quota is checked. *)
Definition afterGates (request : GenerateReplyRequest) (settings : UserSettings)
  (w1 : World) : result GenerateReplyResponse * World :=
  match trackUsage w1 with
  | (Ok usage, w2) =>
      let text := sanitizePostText (postText request) in
      let w3 := log_op (Generate text settings) w2 in
      match gemini_at w2 (io_ops w2) text settings with
      | Ok generated =>
          (Ok {| success := true; reply := Some generated; error := None;
                 usageCount := Some (count usage);
                 rateLimitReached := Some false |}, tick_clock w3)
      | Throw e => (Throw e, w3)
      end
  | (Throw e, w2) => (Throw e, w2)
  end.

End Gateway.

(** ** The page: [src/utils/dom.ts], [src/components/Button.ts],
       [src/contentScript.ts]

    The document is a tree of elements, each with a tag name, a class list
    and its child elements in order.  An element of the page is named by
    the path of child indices leading to it from the root; appending a
    child never changes the path of an element that was already there. *)

Module Dom.

#[warnings="-register-all"] Inductive Element : Type :=
| El (tagName : string) (classList : list string) (children : list Element).

Definition tagName (e : Element) : string := let (t, _, _) := e in t.
Definition classList (e : Element) : list string := let (_, c, _) := e in c.
Definition children (e : Element) : list Element := let (_, _, k) := e in k.

Abbreviation Path := (list nat).

(** A selector of the kind used here looks at the tag and the classes of
    an element. *)
Definition Selector : Type := string -> list string -> bool.

Definition byClass (name : string) : Selector :=
  fun _ classes => array_includes classes name.

Definition byTag (name : string) : Selector :=
  fun tag _ => String.eqb tag name.

(** [a, b] *)
Definition either (a b : Selector) : Selector :=
  fun tag classes => a tag classes || b tag classes.

(** Paths found under the first, second, ... child, in order. *)
Definition underChildren (found : list (list Path)) : list Path :=
  concat (imap (fun i paths => map (cons i) paths) found).

(** The elements of the tree rooted at [e] that match, [e] included, in
    document order. *)
Fixpoint matching (sel : Selector) (e : Element) : list Path :=
  match e with
  | El tag classes kids =>
      (if sel tag classes then [[]] else [])
      ++ underChildren (map (matching sel) kids)
  end.

(** [e.querySelectorAll(sel)]: the descendants of [e] that match. *)
Definition querySelectorAll (sel : Selector) (e : Element) : list Path :=
  underChildren (map (matching sel) (children e)).

(** [e.querySelector(sel)]: the first of them, or [null]. *)
Definition querySelector (sel : Selector) (e : Element) : option Path :=
  head (querySelectorAll sel e).

Fixpoint elementAt (p : Path) (e : Element) : option Element :=
  match p with
  | [] => Some e
  | i :: p' =>
      match children e !! i with
      | Some kid => elementAt p' kid
      | None => None
      end
  end.

(** [target.appendChild(child)] for the element [target] at path [p]. *)
Fixpoint appendChild (p : Path) (child : Element) (e : Element) : Element :=
  match p with
  | [] => El (tagName e) (classList e) (children e ++ [child])
  | i :: p' =>
      El (tagName e) (classList e) (alter (appendChild p' child) i (children e))
  end.

(** *** [SELECTORS] and the lookups of [utils/dom.ts] *)

Definition commentBox : Selector :=
  either (byClass "comments-comment-box__form") (byClass "comments-comment-box").

Definition toolbar : Selector :=
  either (byClass "comments-comment-box__toolbar")
         (byClass "comments-comment-box-comment__text-editor-actions").

Definition aiReplyBtn : Selector := byClass "ai-reply-btn".

(** [document.querySelectorAll(SELECTORS.commentBox)]: every element of
    the document that matches. *)
Definition findCommentBoxes (document : Element) : list Path :=
  matching commentBox document.

(** The insertion point, as a path from the comment box. *)
Definition findInsertionPoint (box : Element) : Path :=
  match querySelector toolbar box with
  | Some bar => bar
  | None =>
      match querySelector (byTag "form") box with
      | Some form => form
      | None => []
      end
  end.

Definition hasButtonInjected (box : Element) : bool :=
  match querySelector aiReplyBtn box with
  | Some _ => true
  | None => false
  end.

(** *** [components/Button.ts] *)

Definition createButton : Element :=
  El "button" ["ai-reply-btn"]
     [ El "svg" ["ai-reply-btn__icon"] [El "path" [] []; El "path" [] []];
       El "span" ["ai-reply-btn__text"] [] ].

(** *** [contentScript.ts] *)

(** The body of the [forEach] of [injectButtons] for the comment box at
    path [box] of the document as it is by then. *)
Definition injectButton (document : Element) (box : Path) : Element :=
  match elementAt box document with
  | Some commentBox =>
      if hasButtonInjected commentBox then document
      else
        let button := createButton in
        let insertionPoint := (box ++ findInsertionPoint commentBox)%list in
        appendChild insertionPoint button document
  | None => document
  end.

Definition injectButtons (document : Element) : Element :=
  let commentBoxes := findCommentBoxes document in
  fold_left injectButton commentBoxes document.

(** [n] scan passes in a row. *)
Fixpoint scans (n : nat) (document : Element) : Element :=
  match n with
  | O => document
  | S n' => injectButtons (scans n' document)
  end.

(** The number of action controls inside the element at [box]. *)
Definition buttonsIn (document : Element) (box : Path) : nat :=
  match elementAt box document with
  | Some e => List.length (querySelectorAll aiReplyBtn e)
  | None => O
  end.

(** No comment box lies inside another one. *)
Definition flat (boxes : list Path) : bool :=
  forallb (fun p =>
    forallb (fun q => implb (bool_decide (p `prefix_of` q)) (bool_decide (p = q)))
            boxes) boxes.

End Dom.

(** ** Vocabulary of the statements *)

(** Field updates of a settings object. *)
Definition with_maxLength (n : Z) (p : PartialSettings) : PartialSettings :=
  {| p_apiKey := p_apiKey p; p_tone := p_tone p; p_maxLength := Some n;
     p_defaultAction := p_defaultAction p; p_rateLimit := p_rateLimit p;
     p_stealthMode := p_stealthMode p |}.

Definition with_rateLimit (n : Z) (p : PartialSettings) : PartialSettings :=
  {| p_apiKey := p_apiKey p; p_tone := p_tone p; p_maxLength := p_maxLength p;
     p_defaultAction := p_defaultAction p; p_rateLimit := Some n;
     p_stealthMode := p_stealthMode p |}.

(** No storage operation fails. *)
Definition reliable (w : World) : Prop := forall k, fault_at w k = None.

(** Every reading of the clock falls before [deadline]. *)
Definition before (deadline : Z) (w : World) : Prop :=
  forall k, now_at w k < deadline.

(** The settings [getSettings] yields when the store answers. *)
Definition storedSettings (w : World) : UserSettings :=
  match sync_settings w with
  | Some stored => spread DEFAULT_SETTINGS stored
  | None => DEFAULT_SETTINGS
  end.

(** The world after [n] calls of [trackUsage] in a row, whatever they
    returned. *)
Fixpoint afterCalls (n : nat) (w : World) : World :=
  match n with
  | O => w
  | S n' => snd (trackUsage (afterCalls n' w))
  end.




(** The writes of the usage record in a trace. *)
Definition isLedgerWrite (ev : Event) : bool :=
  match ev with
  | LocalSet _ => true
  | _ => false
  end.

Definition ledgerWrites (t : list Event) : list Event :=
  List.filter isLedgerWrite t.

(** A thrown rate-limit error. *)
Definition denied {A} (r : result A) : Prop :=
  exists remaining usage, r = Throw (Error (rateLimitMessage remaining usage)).


(** What is kept under ['settings'] is a complete, valid settings object,
    if anything is. *)
Definition settingsStoreValid (w : World) : Prop :=
  match sync_settings w with
  | Some stored => is_full stored = true /\ validateSettings stored = Ok tt
  | None => True
  end.

(** The record [getUsage] makes up when it finds none. *)
Definition defaultUsage (now : Z) : UsageData :=
  {| count := 0; resetDate := now + DAY; limit := rateLimit DEFAULT_SETTINGS |}.

(** The record [resetUsageIfExpired] writes when the window read at [w1]
    has expired. *)
Definition rolledOver (w1 : World) : UsageData :=
  {| count := 0; resetDate := time w1 + DAY;
     limit := rateLimit (match fault_at w1 (io_ops w1) with
                         | Some _ => DEFAULT_SETTINGS
                         | None => storedSettings w1
                         end) |}.

(** ** Sample data: a configured user, a clock that runs for a minute
       from [start], storage that works, and a generator [answer]. *)

Definition sampleSettings : UserSettings :=
  {| apiKey := "AIzaSy-sample-key-0123456789";
     tone := "friendly";
     maxLength := 300;
     defaultAction := "copy";
     rateLimit := 5;
     stealthMode := false |}.

Definition sampleWorld (usage : option UsageData) (start : Z)
  (answer : string -> result string) : World :=
  {| sync_settings := Some (as_partial sampleSettings);
     local_usage := usage;
     clock_reads := 0;
     io_ops := 0;
     now_at := fun k => start + Z.min (Z.of_nat k) 60000;
     fault_at := fun _ => None;
     gemini_at := fun _ text _ => answer text;
     trace := [] |}.

Definition sampleRequest : GenerateReplyRequest :=
  {| postText := "Great insights on leadership!";
     authorName := Some "Ada";
     postDate := None |}.


Definition thanks (text : string) : result string :=
  Ok ("Thanks for sharing. " ++ text).

Definition overloaded (text : string) : result string :=
  Throw (Error "Rate limit exceeded for this API key").

(** Two pages: posts whose comment boxes stand apart, and a comment box
    that matches both selectors, the form lying inside the outer box and
    the toolbar beside the form. *)

Definition samplePage : Dom.Element :=
  Dom.El "body" []
    [ Dom.El "div" ["feed-shared-update-v2"]
        [ Dom.El "div" ["feed-shared-update-v2__description"] [];
          Dom.El "div" ["comments-comment-box"]
            [ Dom.El "form" [] [Dom.El "div" ["ql-editor"] []] ] ];
      Dom.El "div" ["feed-shared-update-v2"]
        [ Dom.El "div" ["comments-comment-box"]
            [ Dom.El "div" ["comments-comment-box__toolbar"] [] ] ] ].

Definition nestedPage : Dom.Element :=
  Dom.El "body" []
    [ Dom.El "div" ["comments-comment-box"]
        [ Dom.El "form" ["comments-comment-box__form"]
            [Dom.El "div" ["ql-editor"] []];
          Dom.El "div" ["comments-comment-box__toolbar"] [] ] ].

(** * The rest of the ledger, the popup, the listener, text and typing *)

(** ** [src/utils/rateLimit.ts], continued *)

Module Status.
(** The object [checkRateLimit] resolves to. *)
Record t : Type := mk {
  limitReached : bool;
  currentCount : Z;
  limit : Z;
  timeUntilReset : string;
  resetDate : Z
}.
End Status.

Definition checkRateLimit : M Status.t :=
  try_catch
    (await usage <- resetUsageIfExpired;
     let limitReached := count usage >=? limit usage in
     await timeUntilReset <- getTimeUntilReset (resetDate usage);
     ret {| Status.limitReached := limitReached;
            Status.currentCount := count usage;
            Status.limit := limit usage;
            Status.timeUntilReset := timeUntilReset;
            Status.resetDate := resetDate usage |})
    (fun error => throw error).

Definition resetUsage : M UsageData :=
  try_catch
    (await usage <- getUsage;
     await now <- date_now;
     let resetUsage :=
       {| count := 0; resetDate := now + DAY; limit := limit usage |} in
     run saveUsage resetUsage;
     ret resetUsage)
    (fun error => throw error).

Definition getRemainingUsage : M Z :=
  try_catch
    (await usage <- resetUsageIfExpired;
     let remaining := Z.max 0 (limit usage - count usage) in
     ret remaining)
    (fun _ => ret 0).

Definition wouldExceedLimit (additionalUsage : Z) : M bool :=
  try_catch
    (await usage <- resetUsageIfExpired;
     ret (count usage + additionalUsage >? limit usage))
    (fun _ => ret true).

Definition with_limit (newLimit : Z) (usage : UsageData) : UsageData :=
  {| count := count usage; resetDate := resetDate usage; limit := newLimit |}.

Definition updateRateLimit (newLimit : Z) : M unit :=
  try_catch
    (if newLimit <? 1 then throw (Error "Rate limit must be at least 1")
     else
       await usage <- getUsage;
       let usage := with_limit newLimit usage in
       saveUsage usage)
    (fun error => throw error).

(** ** [src/utils/storage.ts], continued *)

Definition updateUsageLimit : M unit :=
  try_catch
    (await settings <- getSettings;
     await usage <- getUsage;
     if negb (limit usage =? rateLimit settings) then
       let usage := with_limit (rateLimit settings) usage in
       saveUsage usage
     else ret tt)
    (fun _ => ret tt).

(** ** [src/popup/popup.ts] *)

Definition with_tone (newTone : string) (settings : UserSettings) : UserSettings :=
  {| apiKey := apiKey settings; tone := newTone; maxLength := maxLength settings;
     defaultAction := defaultAction settings; rateLimit := rateLimit settings;
     stealthMode := stealthMode settings |}.

(** [handleToneChange], [newTone] being the value of the tone selector.
    When the read fails, the object whose tone is assigned is the shared
    [DEFAULT_SETTINGS]; the tone being overwritten on every run, what is
    saved is the same whether or not that has happened before. *)
Definition handleToneChange (newTone : string) : M unit :=
  try_catch
    (await settings <- getSettings;
     let settings := with_tone newTone settings in
     saveSettings settings)
    (fun _ => ret tt).

(** ** [src/serviceWorker.ts], continued: the message listener *)

(** A message: its [type] and, for [GENERATE_REPLY], its payload. *)
Record Message : Type := mkMessage {
  messageType : string;
  payload : GenerateReplyRequest
}.

(** What [sendResponse] is called with. *)
Inductive Response : Type :=
| ReplyResponse (response : GenerateReplyResponse)
| SettingsResponse (settings : UserSettings)
| ErrorResponse (error : option string).

(** [error.message], which a thrown value that is no [Error] lacks. *)
Definition messageOf (error : exn) : option string :=
  match error with
  | Error message => Some message
  | NonError => None
  end.

(** [error.message || "Unknown error occurred"] *)
Definition messageOrUnknown (error : exn) : string :=
  match error with
  | Error message =>
      if String.eqb message EmptyString then "Unknown error occurred" else message
  | NonError => "Unknown error occurred"
  end.

Section Listener.

Variable sanitizePostText : string -> string.

(** The listener registered with [chrome.runtime.onMessage]: its return
    value (whether a response will follow) and the calls of
    [sendResponse] made once the promise has settled.  The keep-alive
    timer it restarts is no part of the world modelled here. *)
Definition onMessage (message : Message) : M (bool * list Response) :=
  if String.eqb (messageType message) "GENERATE_REPLY" then
    try_catch
      (await response <- handleGenerateReply sanitizePostText (payload message);
       ret (true, [ReplyResponse response]))
      (fun error =>
         ret (true, [ReplyResponse
                       {| success := false; reply := None;
                          error := Some (messageOrUnknown error);
                          usageCount := None;
                          rateLimitReached := Some (isRateLimitError error) |}]))
  else if String.eqb (messageType message) "GET_SETTINGS" then
    try_catch
      (await settings <- getSettings;
       ret (true, [SettingsResponse settings]))
      (fun error => ret (true, [ErrorResponse (messageOf error)]))
  else ret (false, []).


End Listener.

(** ** [src/utils/validation.ts], continued *)

Module Chars.
Definition lt : ascii := "<"%char.
Definition gt : ascii := ">"%char.
Definition amp : ascii := "&"%char.
Definition apostrophe : ascii := "'"%char.
Definition quote : ascii := ascii_of_nat 34.
Definition slash : ascii := "/"%char.
Definition space : ascii := " "%char.
Definition nul : ascii := ascii_of_nat 0.
End Chars.

(** Removing every character of a class, as [replace] with a global
    pattern and the empty replacement does. *)
Fixpoint removeAll (class : ascii -> bool) (s : string) : string :=
  match s with
  | String c s' => if class c then removeAll class s' else String c (removeAll class s')
  | EmptyString => EmptyString
  end.



(** The entity [map[char]] of [escapeHtml], or the character itself. *)
Definition escapeChar (c : ascii) : string :=
  if Ascii.eqb c Chars.amp then "&amp;"
  else if Ascii.eqb c Chars.lt then "&lt;"
  else if Ascii.eqb c Chars.gt then "&gt;"
  else if Ascii.eqb c Chars.quote then "&quot;"
  else if Ascii.eqb c Chars.apostrophe then "&#x27;"
  else if Ascii.eqb c Chars.slash then "&#x2F;"
  else String c EmptyString.

Fixpoint escapeHtml (text : string) : string :=
  match text with
  | String c rest => escapeChar c ++ escapeHtml rest
  | EmptyString => EmptyString
  end.

(** [/[\x00-\x08\x0B\x0C\x0E-\x1F\x7F]/] *)
Definition controlChar (c : ascii) : bool :=
  let n := nat_of_ascii c in
  ((n <=? 8) || (n =? 11) || (n =? 12) || ((14 <=? n) && (n <=? 31))
   || (n =? 127))%nat.

(** [/\s/] among 8-bit characters: TAB, LF, VT, FF, CR, SPACE and the
    no-break space. *)
Definition whitespace (c : ascii) : bool :=
  let n := nat_of_ascii c in
  (((9 <=? n) && (n <=? 13)) || (n =? 32) || (n =? 160))%nat.

(** Every run of white space becomes one space; [inRun] tells that the
    character before was white space, already replaced. *)
Fixpoint collapseFrom (inRun : bool) (s : string) : string :=
  match s with
  | String c s' =>
      if whitespace c then
        if inRun then collapseFrom true s'
        else String Chars.space (collapseFrom true s')
      else String c (collapseFrom false s')
  | EmptyString => EmptyString
  end.

Definition sanitizeText (text : string) : string :=
  let sanitized := removeAll controlChar text in
  let sanitized := collapseFrom false sanitized in
  let sanitized := trim sanitized in
  sanitized.

Definition sanitizeForStorage (input : string) : string :=
  let sanitized := removeAll (Ascii.eqb Chars.nul) input in
  if Js.length sanitized >? 10000
  then String.substring 0 (Z.to_nat 10000) sanitized
  else sanitized.

(** The characters of a string. *)
Abbreviation chars := list_ascii_of_string.

(** The characters [escapeHtml] replaces, and those among them that can
    open or close markup. *)
Definition htmlSpecial (c : ascii) : bool :=
  Ascii.eqb c Chars.amp || Ascii.eqb c Chars.lt || Ascii.eqb c Chars.gt
  || Ascii.eqb c Chars.quote || Ascii.eqb c Chars.apostrophe
  || Ascii.eqb c Chars.slash.

Definition markupChar (c : ascii) : bool :=
  Ascii.eqb c Chars.lt || Ascii.eqb c Chars.gt
  || Ascii.eqb c Chars.quote || Ascii.eqb c Chars.apostrophe
  || Ascii.eqb c Chars.slash.

(** A character that is neither a control character nor white space. *)
Definition visible (c : ascii) : bool :=
  negb (controlChar c) && negb (whitespace c).

(** Visible characters and single spaces; [prevSpace] forbids a space as
    the next character, and the text may not end in a space. *)
Fixpoint tidyFrom (prevSpace : bool) (s : string) : bool :=
  match s with
  | String c s' =>
      if Ascii.eqb c Chars.space then negb prevSpace && tidyFrom true s'
      else visible c && tidyFrom false s'
  | EmptyString => negb prevSpace
  end.

(** Words of visible characters separated by single spaces. *)
Definition tidy (s : string) : bool :=
  match s with
  | EmptyString => true
  | _ => tidyFrom true s
  end.

(** The same without the condition on the end of the text. *)
Fixpoint looseFrom (prevSpace : bool) (s : string) : bool :=
  match s with
  | String c s' =>
      if Ascii.eqb c Chars.space then negb prevSpace && looseFrom true s'
      else visible c && looseFrom false s'
  | EmptyString => true
  end.

(** ** [src/components/Button.ts], continued: the states of the button *)

Module Button.
Import Dom.

(** A button: the element, its [disabled] property and its attributes. *)
Record t : Type := mk {
  node : Element;
  disabled : bool;
  attributes : list (string * string)
}.

(** [classList.add(name)] and [classList.remove(name)] *)
Definition classListAdd (name : string) (classes : list string) : list string :=
  if array_includes classes name then classes else (classes ++ [name])%list.

Definition classListRemove (name : string) (classes : list string) : list string :=
  List.filter (fun c => negb (String.eqb c name)) classes.

(** [setAttribute(name, value)] and [removeAttribute(name)] *)
Definition setAttribute (name value : string) (attrs : list (string * string))
  : list (string * string) :=
  if existsb (fun kv => String.eqb (fst kv) name) attrs
  then List.map (fun kv => if String.eqb (fst kv) name then (name, value) else kv) attrs
  else (attrs ++ [(name, value)])%list.

Definition removeAttribute (name : string) (attrs : list (string * string))
  : list (string * string) :=
  List.filter (fun kv => negb (String.eqb (fst kv) name)) attrs.

Definition withClasses (f : list string -> list string) (button : t) : t :=
  {| node := El (tagName (node button)) (f (classList (node button)))
                (children (node button));
     disabled := disabled button;
     attributes := attributes button |}.

(** The elements of the two [innerHTML] templates.  An [Element] has no
    text: the label of the button and the white space between its
    elements, in which the template of [createButton] and the one
    [setButtonLoading] restores differ, are not represented. *)
Definition idleContent : list Element :=
  [ El "svg" ["ai-reply-btn__icon"] [El "path" [] []; El "path" [] []];
    El "span" ["ai-reply-btn__text"] [] ].

Definition loadingContent : list Element :=
  [ El "svg" ["ai-reply-btn__spinner"] [El "circle" [] []];
    El "span" ["ai-reply-btn__text"] [] ].

(** [createButton] with the attributes it sets. *)
Definition create : t :=
  {| node := El "button" ["ai-reply-btn"] idleContent;
     disabled := false;
     attributes := [ ("type", "button");
                     ("aria-label", "Generate AI reply suggestion");
                     ("title", "Generate AI reply suggestion") ] |}.

Definition setButtonLoading (loading : bool) (button : t) : t :=
  if loading then
    {| node := El (tagName (node button))
                  (classListAdd "ai-reply-btn--loading" (classList (node button)))
                  loadingContent;
       disabled := true;
       attributes := setAttribute "aria-busy" "true" (attributes button) |}
  else
    {| node := El (tagName (node button))
                  (classListRemove "ai-reply-btn--loading" (classList (node button)))
                  idleContent;
       disabled := false;
       attributes := removeAttribute "aria-busy" (attributes button) |}.

(** [setButtonError]; the timer it starts when [error] holds runs
    [errorTimeout] two seconds later. *)
Definition setButtonError (error : bool) (button : t) : t :=
  if error then withClasses (classListAdd "ai-reply-btn--error") button
  else withClasses (classListRemove "ai-reply-btn--error") button.

Definition errorTimeout (button : t) : t :=
  withClasses (classListRemove "ai-reply-btn--error") button.

(** [setButtonSuccess]; its timer runs [successTimeout] one second later. *)
Definition setButtonSuccess (button : t) : t :=
  withClasses (classListAdd "ai-reply-btn--success") button.

Definition successTimeout (button : t) : t :=
  withClasses (classListRemove "ai-reply-btn--success") button.

(** What can happen to a button, and a sequence of such steps. *)
Inductive Step : Type :=
| Loading (loading : bool)
| Failed (error : bool)
| FailedTimeout
| Succeeded
| SucceededTimeout.

Definition step (button : t) (s : Step) : t :=
  match s with
  | Loading loading => setButtonLoading loading button
  | Failed error => setButtonError error button
  | FailedTimeout => errorTimeout button
  | Succeeded => setButtonSuccess button
  | SucceededTimeout => successTimeout button
  end.

Definition steps (button : t) (history : list Step) : t := fold_left step history button.

(** A button at rest: enabled, with its idle content, and without the
    classes and the attribute of the other states. *)
Definition idle (button : t) : Prop :=
  disabled button = false
  /\ children (node button) = idleContent
  /\ array_includes (classList (node button)) "ai-reply-btn--loading" = false
  /\ array_includes (classList (node button)) "ai-reply-btn--error" = false
  /\ existsb (fun kv => String.eqb (fst kv) "aria-busy") (attributes button) = false.

End Button.

(** ** [src/utils/typing.ts]

    The element typed into is its text, whether it holds the focus, and
    the events this code has dispatched on it so far, in order; what the
    page's own listeners do with them is outside the model, and they
    are taken to leave [textContent] alone.  [sleep] and the random
    delays decide only when the next step runs; they are left out, and
    so are the options that feed them. *)

Module Typing.

Inductive EventClass : Type := InputEvent | KeyboardEvent | PlainEvent.

Record DomEvent : Type := mkEvent {
  eventClass : EventClass;
  eventType : string;
  bubbles : bool;
  cancelable : bool;
  data : option string;
  inputType : option string
}.

Record Editable : Type := mkEditable {
  textContent : string;
  focused : bool;
  dispatched : list DomEvent
}.

(** The [options] of [fireEvent]: the members its callers set. *)
Record Options : Type := mkOptions {
  o_bubbles : option bool;
  o_cancelable : option bool;
  o_data : option string;
  o_inputType : option string
}.

Definition noOptions : Options := mkOptions None None None None.

Definition setTextContent (text : string) (element : Editable) : Editable :=
  {| textContent := text; focused := focused element;
     dispatched := dispatched element |}.

(** [element.focus()] *)
Definition focus (element : Editable) : Editable :=
  {| textContent := textContent element; focused := true;
     dispatched := dispatched element |}.

(** [element.dispatchEvent(event)] *)
Definition dispatchEvent (event : DomEvent) (element : Editable) : Editable :=
  {| textContent := textContent element; focused := focused element;
     dispatched := (dispatched element ++ [event])%list |}.

Definition fireEvent (eventType : string) (options : Options)
  (element : Editable) : Editable :=
  let event :=
    if String.eqb eventType "input" then
      {| eventClass := InputEvent; eventType := eventType;
         bubbles := default true (o_bubbles options);
         cancelable := default true (o_cancelable options);
         data := o_data options; inputType := o_inputType options |}
    else if String.eqb eventType "keyup" || String.eqb eventType "keydown" then
      {| eventClass := KeyboardEvent; eventType := eventType;
         bubbles := default true (o_bubbles options);
         cancelable := default true (o_cancelable options);
         data := None; inputType := None |}
    else
      {| eventClass := PlainEvent; eventType := eventType;
         bubbles := default true (o_bubbles options);
         cancelable := default true (o_cancelable options);
         data := None; inputType := None |} in
  dispatchEvent event element.

Definition fireInputEvents (value : string) (element : Editable) : Editable :=
  let element :=
    fireEvent "input"
      {| o_bubbles := Some true; o_cancelable := Some true;
         o_data := Some value; o_inputType := Some "insertText" |} element in
  fireEvent "keyup"
    {| o_bubbles := Some true; o_cancelable := Some true;
       o_data := None; o_inputType := None |} element.

(** The [for] loop of [simulateTyping] over the characters still to type. *)
Fixpoint typeCharacters (text : string) (element : Editable) : Editable :=
  match text with
  | String char rest =>
      let element :=
        setTextContent (textContent element ++ String char EmptyString) element in
      let element := fireInputEvents (textContent element) element in
      typeCharacters rest element
  | EmptyString => element
  end.

Definition simulateTyping (text : string) (element : Editable) : Editable :=
  let element := setTextContent EmptyString element in
  let element := focus element in
  let element := fireEvent "focus" noOptions element in
  let element := typeCharacters text element in
  let element := fireEvent "change" noOptions element in
  fireEvent "blur" noOptions element.

Definition fastInsert (text : string) (element : Editable) : Editable :=
  let element := setTextContent text element in
  let element := focus element in
  let element := fireEvent "focus" noOptions element in
  let element := fireInputEvents text element in
  let element := fireEvent "change" noOptions element in
  fireEvent "blur" noOptions element.

(** [insertTextIntoCommentBox] of [utils/dom.ts], given what
    [commentBox.querySelector(SELECTORS.commentTextarea)] found: whether
    the text went in, and the textarea afterwards. *)
Definition insertTextIntoCommentBox (textarea : option Editable) (text : string)
  (useTypingSimulation : bool) : bool * option Editable :=
  match textarea with
  | None => (false, None)
  | Some textarea =>
      if useTypingSimulation
      then (true, Some (simulateTyping text textarea))
      else (true, Some (fastInsert text textarea))
  end.

(** The events the statements name. *)
Definition plain (eventType : string) : DomEvent :=
  mkEvent PlainEvent eventType true true None None.

Definition keyup : DomEvent :=
  mkEvent KeyboardEvent "keyup" true true None None.

Definition input (value : string) : DomEvent :=
  mkEvent InputEvent "input" true true (Some value) (Some "insertText").

End Typing.

(** ** More sample data: storage whose first operation fails, settings
       with a tone that does not exist, and a text with markup in it. *)

Definition flakyWorld : World :=
  {| sync_settings := Some (as_partial sampleSettings);
     local_usage := None;
     clock_reads := 0;
     io_ops := 0;
     now_at := fun _ => 1000;
     fault_at := fun k => match k with
                          | O => Some (Error "storage unavailable")
                          | S _ => None
                          end;
     gemini_at := fun _ text _ => thanks text;
     trace := [] |}.

Definition rudeSettings : UserSettings := with_tone "rude" sampleSettings.

Definition markup : string := "<b>Tom & Jerry</b>".

(** A ledger of five uses a day with two of them made and with all of
    them made, and a textarea that holds a draft. *)

Definition partlyUsed : UsageData :=
  {| count := 2; resetDate := 86401000; limit := 5 |}.

Definition usedUp : UsageData :=
  {| count := 5; resetDate := 86401000; limit := 5 |}.

Definition draftTextarea : Typing.Editable :=
  {| Typing.textContent := "draft"; Typing.focused := false;
     Typing.dispatched := [] |}.

(** * Properties *)

(** ** Settings validation *)

Ltac settle_guards H :=
  repeat match type of H with
         | context [guard ?b _] =>
             destruct b eqn:?; cbn [guard seq_checks when_defined] in H;
             try discriminate H
         end.

(** C7. Validation accepts and rejects at the documented bounds: in a
    settings object that is otherwise valid, [maxLength] 99 and 1001 are
    rejected, 100 and 1000 accepted, [rateLimit] 0 rejected and 1
    accepted. *)
Theorem validateSettings_boundaries (p : PartialSettings) :
  validateSettings p = Ok tt ->
  validateSettings (with_maxLength 99 p)
    = Throw (Error "Max length must be between 100 and 1000 characters")
  /\ validateSettings (with_maxLength 100 p) = Ok tt
  /\ validateSettings (with_maxLength 1000 p) = Ok tt
  /\ validateSettings (with_maxLength 1001 p)
    = Throw (Error "Max length must be between 100 and 1000 characters")
  /\ validateSettings (with_rateLimit 0 p)
    = Throw (Error "Rate limit must be between 1 and 10000")
  /\ validateSettings (with_rateLimit 1 p) = Ok tt.
Proof.
  destruct p as [k t m a r s]; intros H.
  unfold validateSettings, with_maxLength, with_rateLimit in *.
  destruct k, t, m, a, r; cbn [when_defined seq_checks p_apiKey p_tone
    p_maxLength p_defaultAction p_rateLimit] in *;
    settle_guards H; cbn; repeat split; reflexivity.
Qed.

(** ** The settings store *)

Lemma spread_as_partial (base s : UserSettings) : spread base (as_partial s) = s.
Proof. destruct s; reflexivity. Qed.

Lemma is_full_as_partial (s : UserSettings) : is_full (as_partial s) = true.
Proof. reflexivity. Qed.

Lemma saveSettings_invalid (s : UserSettings) (w : World) :
  validateSettings (as_partial s) <> Ok tt ->
  saveSettings s w = (Throw (Error "Failed to save settings"), w).
Proof.
  intros Hbad. unfold saveSettings, try_catch, bind, lift, throw.
  destruct (validateSettings (as_partial s)) as [[]|e]; [congruence | reflexivity].
Qed.

Lemma saveSettings_valid (s : UserSettings) (w : World) :
  validateSettings (as_partial s) = Ok tt ->
  saveSettings s w =
    match fault_at w (io_ops w) with
    | Some _ => (Throw (Error "Failed to save settings"),
                 log_op (SyncSet (as_partial s)) w)
    | None => (Ok tt, write_sync (as_partial s) (log_op (SyncSet (as_partial s)) w))
    end.
Proof.
  intros Hok. unfold saveSettings, try_catch, bind, lift, throw.
  rewrite Hok. unfold storage_sync_set, storage_op.
  destruct (fault_at w (io_ops w)); reflexivity.
Qed.

Lemma getSettings_run (w : World) :
  getSettings w =
    (Ok (match fault_at w (io_ops w) with
         | Some _ => DEFAULT_SETTINGS
         | None => storedSettings w
         end), log_op SyncGet w).
Proof.
  unfold getSettings, try_catch, bind, storage_sync_get, storage_op, ret,
    storedSettings.
  destruct (fault_at w (io_ops w)); reflexivity.
Qed.

(** C6. Saving a settings record that passes validation and loading it
    again gives the saved record merged over the defaults (which is the
    record itself, all of its fields being present).  [saveSettings]
    validates before it writes: a record that fails validation leaves the
    world untouched; every write [saveSettings] attempts is of the whole
    record, which has passed validation; and a store that held a complete
    valid record, or none, still does afterwards. *)
Theorem saveSettings_getSettings_roundtrip (s : UserSettings) (w : World) :
  (validateSettings (as_partial s) = Ok tt -> reliable w ->
     exists w1 w2,
       saveSettings s w = (Ok tt, w1)
       /\ sync_settings w1 = Some (as_partial s)
       /\ getSettings w1 = (Ok (spread DEFAULT_SETTINGS (as_partial s)), w2)
       /\ spread DEFAULT_SETTINGS (as_partial s) = s)
  /\ (validateSettings (as_partial s) <> Ok tt ->
      saveSettings s w = (Throw (Error "Failed to save settings"), w))
  /\ (exists attempted,
        trace (snd (saveSettings s w)) = (trace w ++ attempted)%list
        /\ Forall (fun ev => ev = SyncSet (as_partial s)
                             /\ is_full (as_partial s) = true
                             /\ validateSettings (as_partial s) = Ok tt)
                  attempted)
  /\ (settingsStoreValid w -> settingsStoreValid (snd (saveSettings s w))).
Proof.
  split; [|split; [|split]].
  - intros Hok Hrel.
    eexists _, _. rewrite (saveSettings_valid _ _ Hok), (Hrel _).
    split; [reflexivity|]. split; [reflexivity|].
    rewrite getSettings_run. cbn. rewrite (Hrel _). unfold storedSettings; cbn.
    split; [reflexivity | apply spread_as_partial].
  - apply saveSettings_invalid.
  - destruct (validateSettings (as_partial s)) as [[]|e] eqn:Hv.
    + exists [SyncSet (as_partial s)]. rewrite (saveSettings_valid _ _ Hv).
      split; [destruct (fault_at w (io_ops w)); reflexivity|].
      repeat constructor.
    + exists []. rewrite saveSettings_invalid by congruence.
      split; [symmetry; apply app_nil_r | constructor].
  - intros Hw. destruct (validateSettings (as_partial s)) as [[]|e] eqn:Hv.
    + rewrite (saveSettings_valid _ _ Hv).
      destruct (fault_at w (io_ops w)); cbn; [exact Hw|].
      unfold settingsStoreValid; cbn. auto.
    + rewrite saveSettings_invalid by congruence. exact Hw.
Qed.

(** ** The usage ledger *)

Lemma getUsage_run (w : World) :
  getUsage w =
    match fault_at w (io_ops w), local_usage w with
    | None, Some usage => (Ok usage, log_op LocalGet w)
    | _, _ => (Ok (defaultUsage (time w)), tick_clock (log_op LocalGet w))
    end.
Proof.
  unfold getUsage, try_catch, bind, storage_local_get, storage_op, ret, date_now.
  destruct (fault_at w (io_ops w)); [reflexivity|].
  cbn. destruct (local_usage w); reflexivity.
Qed.

(** C9. When the store holds no usage record, or reading it fails,
    [getUsage] returns the record [{count: 0, resetDate: now + 24h,
    limit: 50}] and writes nothing: the only operation it attempts is the
    read, both storage areas are as before, and the limit is the built-in
    default whatever [rateLimit] the saved settings carry. *)
Theorem getUsage_default_not_persisted (w : World) :
  local_usage w = None \/ fault_at w (io_ops w) <> None ->
  exists w',
    getUsage w = (Ok {| count := 0; resetDate := time w + 24 * 60 * 60 * 1000;
                        limit := 50 |}, w')
    /\ local_usage w' = local_usage w
    /\ sync_settings w' = sync_settings w
    /\ trace w' = (trace w ++ [LocalGet])%list.
Proof.
  intros H. rewrite getUsage_run.
  assert (Hdefault :
    match fault_at w (io_ops w), local_usage w with
    | None, Some usage => (Ok usage, log_op LocalGet w)
    | _, _ => (Ok (defaultUsage (time w)), tick_clock (log_op LocalGet w))
    end = (Ok (defaultUsage (time w)), tick_clock (log_op LocalGet w))).
  { destruct H as [H|H].
    - rewrite H. destruct (fault_at w (io_ops w)); reflexivity.
    - destruct (fault_at w (io_ops w)); [reflexivity | congruence]. }
  rewrite Hdefault. eexists. split; [reflexivity|]. cbn. auto.
Qed.

Lemma saveUsage_run (usage : UsageData) (w : World) :
  saveUsage usage w =
    match fault_at w (io_ops w) with
    | Some _ => (Throw (Error "Failed to save usage data"), log_op (LocalSet usage) w)
    | None => (Ok tt, write_local usage (log_op (LocalSet usage) w))
    end.
Proof.
  unfold saveUsage, try_catch, storage_local_set, storage_op, throw.
  destruct (fault_at w (io_ops w)); reflexivity.
Qed.

Lemma getUsage_total (w : World) : exists usage w1, getUsage w = (Ok usage, w1).
Proof.
  rewrite getUsage_run.
  destruct (fault_at w (io_ops w)), (local_usage w); eauto.
Qed.

Lemma resetUsageIfExpired_run (w w1 : World) (usage : UsageData) :
  getUsage w = (Ok usage, w1) ->
  resetUsageIfExpired w =
    if time w1 >=? resetDate usage then
      let w2 := log_op SyncGet (tick_clock w1) in
      match fault_at w2 (io_ops w2) with
      | Some _ => (Throw (Error "Failed to save usage data"),
                   log_op (LocalSet (rolledOver w1)) w2)
      | None => (Ok (rolledOver w1),
                 write_local (rolledOver w1) (log_op (LocalSet (rolledOver w1)) w2))
      end
    else (Ok usage, tick_clock w1).
Proof.
  intros Hget. unfold resetUsageIfExpired, try_catch, bind. rewrite Hget.
  unfold date_now at 1. cbn beta iota.
  destruct (time w1 >=? resetDate usage); [|reflexivity].
  rewrite getSettings_run, saveUsage_run. cbn.
  destruct (fault_at w1 (S (io_ops w1))); reflexivity.
Qed.

Lemma trackUsage_run (w : World) :
  trackUsage w =
    match resetUsageIfExpired w with
    | (Ok usage, w1) =>
        if count usage >=? limit usage then
          (Throw (Error (rateLimitMessage
                           (timeUntilResetAt (resetDate usage) (time w1)) usage)),
           tick_clock w1)
        else
          match fault_at w1 (io_ops w1) with
          | Some _ => (Throw (Error "Failed to save usage data"),
                       log_op (LocalSet (increment usage)) w1)
          | None => (Ok (increment usage),
                     write_local (increment usage)
                       (log_op (LocalSet (increment usage)) w1))
          end
    | (Throw e, w1) => (Throw e, w1)
    end.
Proof.
  unfold trackUsage, try_catch, bind.
  destruct (resetUsageIfExpired w) as [[usage|e] w1]; [|reflexivity].
  destruct (count usage >=? limit usage).
  - reflexivity.
  - rewrite saveUsage_run. destruct (fault_at w1 (io_ops w1)); reflexivity.
Qed.

(** What the ledger can throw: the rate-limit error, or the error of a
    failed write. *)
Lemma trackUsage_throws (w w' : World) (e : exn) :
  trackUsage w = (Throw e, w') ->
  (exists remaining usage, e = Error (rateLimitMessage remaining usage))
  \/ e = Error "Failed to save usage data".
Proof.
  rewrite trackUsage_run. destruct (getUsage_total w) as (stored & wg & Hget).
  rewrite (resetUsageIfExpired_run _ _ _ Hget).
  destruct (time wg >=? resetDate stored); cbn zeta.
  - destruct (fault_at _ _); [intros H; injection H as <- _; auto|].
    destruct (count _ >=? limit _); [intros H; injection H as <- _; eauto|].
    destruct (fault_at _ _); [intros H; injection H as <- _; auto | discriminate].
  - destruct (count _ >=? limit _); [intros H; injection H as <- _; eauto|].
    destruct (fault_at _ _); [intros H; injection H as <- _; auto | discriminate].
Qed.

Lemma resetUsageIfExpired_stored (w : World) (u : UsageData) :
  local_usage w = Some u -> reliable w ->
  resetUsageIfExpired w =
    if time w >=? resetDate u then
      let rolled := {| count := 0; resetDate := time w + DAY;
                       limit := rateLimit (storedSettings w) |} in
      (Ok rolled,
       write_local rolled
         (log_op (LocalSet rolled)
            (log_op SyncGet (tick_clock (log_op LocalGet w)))))
    else (Ok u, tick_clock (log_op LocalGet w)).
Proof.
  intros Hu Hrel.
  rewrite (resetUsageIfExpired_run w (log_op LocalGet w) u)
    by (rewrite getUsage_run, (Hrel _), Hu; reflexivity).
  unfold rolledOver. cbn. rewrite !(Hrel _). reflexivity.
Qed.

(** C2. Window rollover.  When the stored record's window has ended at
    the time [time w] of the call, and storage works, [resetUsageIfExpired]
    returns and persists a record with count 0 whose [resetDate] is
    exactly 24 hours after [time w]; [trackUsage] returns and persists the
    same record with count 1, provided the saved rate limit is at least
    1. *)
Theorem window_rollover (w : World) (u : UsageData) :
  local_usage w = Some u -> reliable w -> resetDate u <= time w ->
  let rolled := {| count := 0; resetDate := time w + 24 * 60 * 60 * 1000;
                   limit := rateLimit (storedSettings w) |} in
  let consumed := {| count := 1; resetDate := time w + 24 * 60 * 60 * 1000;
                     limit := rateLimit (storedSettings w) |} in
  (exists w', resetUsageIfExpired w = (Ok rolled, w')
              /\ local_usage w' = Some rolled)
  /\ (1 <= rateLimit (storedSettings w) ->
      exists w', trackUsage w = (Ok consumed, w')
                 /\ local_usage w' = Some consumed).
Proof.
  intros Hu Hrel Hexp rolled consumed.
  pose proof (resetUsageIfExpired_stored w u Hu Hrel) as Hrun.
  replace (time w >=? resetDate u) with true in Hrun by (symmetry; lia).
  cbn zeta in Hrun. split.
  - eexists. split; [exact Hrun | reflexivity].
  - intros Hlimit. rewrite trackUsage_run, Hrun. cbn.
    replace (0 >=? rateLimit (storedSettings w)) with false by (symmetry; lia).
    rewrite (Hrel _). eexists. split; reflexivity.
Qed.

Lemma trackUsage_in_window (w : World) (u : UsageData) :
  local_usage w = Some u -> reliable w -> time w < resetDate u ->
  trackUsage w =
    if count u >=? limit u then
      (Throw (Error (rateLimitMessage
                       (timeUntilResetAt (resetDate u) (now_at w (S (clock_reads w))))
                       u)),
       tick_clock (tick_clock (log_op LocalGet w)))
    else
      (Ok (increment u),
       write_local (increment u)
         (log_op (LocalSet (increment u)) (tick_clock (log_op LocalGet w)))).
Proof.
  intros Hu Hrel Hin.
  rewrite trackUsage_run, (resetUsageIfExpired_stored w u Hu Hrel).
  replace (time w >=? resetDate u) with false by (symmetry; lia).
  destruct (count u >=? limit u); [reflexivity|].
  cbn. rewrite (Hrel _). reflexivity.
Qed.

(** After [n] calls within the window the count has moved up to the
    limit, or not at all when it started at or above it, and the oracles
    are as they were. *)
Lemma afterCalls_in_window (w : World) (u0 : UsageData) (n : nat) :
  local_usage w = Some u0 -> reliable w -> before (resetDate u0) w ->
  local_usage (afterCalls n w)
    = Some {| count := Z.max (count u0)
                         (Z.min (count u0 + Z.of_nat n) (limit u0));
              resetDate := resetDate u0; limit := limit u0 |}
  /\ reliable (afterCalls n w)
  /\ before (resetDate u0) (afterCalls n w).
Proof.
  intros Hu Hrel Hwin. induction n as [|n (IHu & IHrel & IHwin)].
  - cbn. rewrite Hu, Z.add_0_r. replace (Z.max _ _) with (count u0) by lia.
    destruct u0; auto.
  - cbn [afterCalls].
    rewrite (trackUsage_in_window _ _ IHu IHrel) by apply IHwin.
    cbn [count limit resetDate].
    destruct (Z.max (count u0) (Z.min (count u0 + Z.of_nat n) (limit u0))
              >=? limit u0) eqn:Hfull;
      cbn; (split; [|split; [exact IHrel | exact IHwin]]).
    + rewrite IHu. f_equal. f_equal. lia.
    + unfold increment; cbn. f_equal. f_equal. lia.
Qed.

(** C1. Quota monotonicity.  Take a stored record, let storage work and
    let every reading of the clock fall inside the record's window.  Then
    for each further call of [trackUsage] the stored count does not
    decrease, the window and the limit stay the same, and a count that
    started at most [limit] stays at most [limit]; while [count < limit]
    the call succeeds and adds one; once [count] has reached [limit] the
    call throws the rate-limit error and leaves the record as it is.  A
    window that starts at count 0 therefore denies its [(limit+1)]-th
    call. *)
Theorem quota_monotonicity (w : World) (u0 : UsageData) (n : nat) :
  local_usage w = Some u0 -> reliable w -> before (resetDate u0) w ->
  exists u u',
    local_usage (afterCalls n w) = Some u
    /\ local_usage (afterCalls (S n) w) = Some u'
    /\ count u <= count u'
    /\ (count u0 <= limit u0 -> count u' <= limit u')
    /\ limit u' = limit u0 /\ resetDate u' = resetDate u0
    /\ (count u < limit u ->
        fst (trackUsage (afterCalls n w)) = Ok u' /\ count u' = count u + 1)
    /\ (limit u <= count u ->
        denied (fst (trackUsage (afterCalls n w))) /\ u' = u)
    /\ (count u0 = 0 -> Z.of_nat n = limit u0 ->
        denied (fst (trackUsage (afterCalls n w)))).
Proof.
  intros Hu Hrel Hwin.
  destruct (afterCalls_in_window w u0 n Hu Hrel Hwin) as (Hn & Hreln & Hwinn).
  destruct (afterCalls_in_window w u0 (S n) Hu Hrel Hwin) as (HSn & _ & _).
  eexists _, _. split; [exact Hn|]. split; [exact HSn|].
  rewrite (trackUsage_in_window _ _ Hn Hreln) by apply Hwinn.
  cbn [count limit resetDate fst].
  split; [lia|]. split; [lia|]. split; [reflexivity|]. split; [reflexivity|].
  split; [|split].
  - intros Hlt. replace (_ >=? _) with false by (symmetry; lia). cbn.
    unfold increment; cbn. split; [f_equal; f_equal|]; lia.
  - intros Heq. replace (_ >=? _) with true by (symmetry; lia).
    split; [eexists _, _; reflexivity | f_equal; lia].
  - intros H0 Hlim. replace (_ >=? _) with true by (symmetry; lia).
    eexists _, _; reflexivity.
Qed.

(** ** The generation gateway *)

Lemma validatePostText_ok (text : string) :
  validatePostText text = Ok tt <->
  5 <= Js.length (trim text) <= 10000.
Proof.
  unfold validatePostText, guard, seq_checks.
  destruct (String.eqb_spec text EmptyString) as [->|_].
  - split; [discriminate | intros [H _]; exfalso; apply H; reflexivity].
  - destruct (Js.length (trim text) =? 0) eqn:H0;
      [split; [discriminate | lia]|].
    destruct (Js.length (trim text) <? 5) eqn:H5;
      [split; [discriminate | lia]|].
    destruct (Js.length (trim text) >? 10000) eqn:Hmax;
      [split; [discriminate | lia]|].
    split; [lia | reflexivity].
Qed.

Lemma validatePostText_rejects (text : string) :
  Js.length (trim text) < 5 \/ 10000 < Js.length (trim text) ->
  exists e, validatePostText text = Throw e.
Proof.
  intros H. destruct (validatePostText text) as [[]|e] eqn:Hv; [|eauto].
  apply validatePostText_ok in Hv. lia.
Qed.

Section GatewayFacts.

Variable sanitizePostText : string -> string.

Lemma handleGenerateReply_run (request : GenerateReplyRequest) (w : World) :
  handleGenerateReply sanitizePostText request w =
    match generateReply sanitizePostText request (tick_clock w) with
    | (Ok response, w') => (Ok response, w')
    | (Throw e, w') => (Ok (failure e), tick_clock w')
    end.
Proof.
  unfold handleGenerateReply, bind at 1, date_now at 1, try_catch.
  destruct (generateReply _ _ _) as [[response|e] w']; reflexivity.
Qed.

Lemma generateReply_run (request : GenerateReplyRequest) (w : World) :
  generateReply sanitizePostText request w =
    match validatePostText (postText request) with
    | Throw e => (Throw e, w)
    | Ok _ =>
        let settings := match fault_at w (io_ops w) with
                        | Some _ => DEFAULT_SETTINGS
                        | None => storedSettings w
                        end in
        if apiKeyMissing settings
        then (Throw (Error "API key not configured"), log_op SyncGet w)
        else afterGates sanitizePostText request settings (log_op SyncGet w)
    end.
Proof.
  unfold generateReply, bind at 1, lift.
  destruct (validatePostText (postText request)) as [[]|e]; [|reflexivity].
  unfold bind at 1. rewrite getSettings_run. cbn zeta.
  destruct (apiKeyMissing _); [reflexivity|].
  unfold afterGates, bind at 1, try_catch, throw.
  destruct (trackUsage _) as [[usage|e] w2]; [|reflexivity].
  unfold bind, callGeminiAPI, date_now, ret.
  destruct (gemini_at w2 (io_ops w2) _ _); reflexivity.
Qed.
















Lemma provider_error_surfaces (request : GenerateReplyRequest) (w w2 : World)
    (usage : UsageData) (e : exn) :
  validatePostText (postText request) = Ok tt ->
  fault_at w (io_ops w) = None ->
  apiKeyMissing (storedSettings w) = false ->
  trackUsage (log_op SyncGet (tick_clock w)) = (Ok usage, w2) ->
  gemini_at w2 (io_ops w2) (sanitizePostText (postText request))
    (storedSettings w) = Throw e ->
  generateReply sanitizePostText request (tick_clock w) =
    (Throw e, log_op (Generate (sanitizePostText (postText request))
                        (storedSettings w)) w2).
Proof.
  intros Hv Hfault Hkey Htrack Hgen.
  rewrite generateReply_run, Hv.
  cbn [io_ops fault_at tick_clock]. rewrite Hfault. cbn zeta.
  change (storedSettings (tick_clock w)) with (storedSettings w).
  rewrite Hkey. unfold afterGates. rewrite Htrack. cbn zeta.
  rewrite Hgen. reflexivity.
Qed.

(** C10. The gateway tells a rate-limit denial from any other failure
    by the error message alone.  Whatever the [try] block of
    [handleGenerateReply] throws, the response is a failure carrying the
    error's message, and its [rateLimitReached] is [true] exactly when
    the thrown value is an [Error] whose message contains ["Rate limit"]. *)
Theorem rate_limit_flag_follows_message (request : GenerateReplyRequest)
    (w w1 : World) (e : exn) :
  generateReply sanitizePostText request (tick_clock w) = (Throw e, w1) ->
  exists response,
    handleGenerateReply sanitizePostText request w = (Ok response, tick_clock w1)
    /\ success response = false
    /\ error response = Some (match e with
                              | Error message => message
                              | NonError => "Unknown error occurred"
                              end)
    /\ rateLimitReached response
       = Some (match e with
               | Error message => includes "Rate limit" message
               | NonError => false
               end).
Proof.
  intros Hthrow. rewrite handleGenerateReply_run, Hthrow.
  eexists. repeat split.
Qed.

End GatewayFacts.

Import Dom.
#[local] Open Scope list_scope.

(** ** The scan pass *)

Lemma Element_tree_ind (P : Element -> Prop) :
  (forall tag classes kids, Forall P kids -> P (El tag classes kids)) ->
  forall e, P e.
Proof.
  intros step. fix IH 1. intros [tag classes kids]. apply step.
  induction kids as [|k kids IHkids]; constructor; [apply IH | exact IHkids].
Qed.

Lemma elem_of_underChildren (found : list (list Path)) (p : Path) :
  p ∈ underChildren found <->
  exists i paths q, found !! i = Some paths /\ q ∈ paths /\ p = i :: q.
Proof.
  unfold underChildren. rewrite list_elem_of_In, in_concat. split.
  - intros (l & Hl & Hp). apply list_elem_of_In, list_elem_of_lookup in Hl.
    destruct Hl as (i & Hi). rewrite list_lookup_imap in Hi.
    destruct (found !! i) as [paths|] eqn:Hf; [|discriminate].
    cbn in Hi. injection Hi as <-. apply in_map_iff in Hp as (q & <- & Hq).
    exists i, paths, q. rewrite list_elem_of_In. auto.
  - intros (i & paths & q & Hf & Hq & ->).
    exists (map (cons i) paths). split.
    + apply list_elem_of_In, list_elem_of_lookup. exists i.
      rewrite list_lookup_imap, Hf. reflexivity.
    + apply in_map, list_elem_of_In, Hq.
Qed.

Lemma length_underChildren (found : list (list Path)) :
  List.length (underChildren found) = sum_list (List.length <$> found).
Proof.
  unfold underChildren.
  assert (Hgen : forall f : nat -> list Path -> list Path,
             (forall i paths, List.length (f i paths) = List.length paths) ->
             List.length (concat (imap f found))
             = sum_list (List.length <$> found)).
  { induction found as [|paths found IH]; intros f Hf; [reflexivity|].
    rewrite imap_cons. cbn. rewrite length_app, Hf, IH; [reflexivity|].
    intros i paths'. apply Hf. }
  apply Hgen. intros i paths. apply length_map.
Qed.

Lemma underChildren_snoc (found : list (list Path)) (last : list Path) :
  underChildren (found ++ [last])
  = underChildren found ++ map (cons (List.length found)) last.
Proof.
  unfold underChildren. rewrite imap_app, concat_app. cbn.
  rewrite app_nil_r, Nat.add_0_r. reflexivity.
Qed.

Lemma matching_unfold (sel : Selector) (e : Element) :
  matching sel e =
    (if sel (tagName e) (classList e) then [[]] else [])
    ++ querySelectorAll sel e.
Proof. destruct e; reflexivity. Qed.

(** Every path found names an element. *)
Lemma matching_elementAt (sel : Selector) (e : Element) (p : Path) :
  p ∈ matching sel e -> is_Some (elementAt p e).
Proof.
  revert p. induction e as [tag classes kids IH] using Element_tree_ind.
  intros p. cbn [matching]. rewrite elem_of_app. intros [Hroot|Hkids].
  - destruct (sel tag classes); [|inversion Hroot].
    apply list_elem_of_singleton in Hroot as ->. cbn. eauto.
  - apply elem_of_underChildren in Hkids as (i & paths & q & Hi & Hq & ->).
    rewrite list_lookup_fmap in Hi.
    destruct (kids !! i) as [kid|] eqn:Hkid; [|discriminate].
    cbn in Hi. injection Hi as <-. cbn. rewrite Hkid.
    rewrite Forall_lookup in IH. exact (IH i kid Hkid q Hq).
Qed.

Lemma querySelectorAll_elementAt (sel : Selector) (e : Element) (p : Path) :
  p ∈ querySelectorAll sel e -> is_Some (elementAt p e).
Proof.
  intros H. apply (matching_elementAt sel). rewrite matching_unfold.
  apply elem_of_app. right. exact H.
Qed.

Lemma findInsertionPoint_elementAt (box : Element) :
  is_Some (elementAt (findInsertionPoint box) box).
Proof.
  unfold findInsertionPoint, querySelector.
  destruct (querySelectorAll toolbar box) as [|bar ?] eqn:Hbar; cbn.
  - destruct (querySelectorAll (byTag "form") box) as [|form ?] eqn:Hform; cbn.
    + eauto.
    + apply (querySelectorAll_elementAt (byTag "form")). rewrite Hform. left.
  - apply (querySelectorAll_elementAt toolbar). rewrite Hbar. left.
Qed.

Lemma tagName_appendChild (p : Path) (child e : Element) :
  tagName (appendChild p child e) = tagName e.
Proof. destruct p; reflexivity. Qed.

Lemma classList_appendChild (p : Path) (child e : Element) :
  classList (appendChild p child e) = classList e.
Proof. destruct p; reflexivity. Qed.

(** An element that was there before an [appendChild] is still at its
    path afterwards, unchanged or, when the target lies at or below it,
    with the child appended inside it. *)
Lemma elementAt_appendChild (q u : Path) (child d e : Element) :
  elementAt q d = Some e ->
  exists e',
    elementAt q (appendChild u child d) = Some e'
    /\ (e' = e \/ exists r, u = (q ++ r)%list /\ e' = appendChild r child e).
Proof.
  revert u d. induction q as [|i q IH]; intros u d Hq.
  - injection Hq as <-. eexists. split; [reflexivity|]. right. eauto.
  - cbn in Hq. destruct (children d !! i) as [kid|] eqn:Hkid; [|discriminate].
    destruct u as [|j u]; cbn.
    + rewrite (lookup_app_l_Some _ _ _ _ Hkid). eauto.
    + destruct (decide (j = i)) as [->|Hne].
      * rewrite list_lookup_alter_eq, Hkid. cbn.
        destruct (IH u kid Hq) as (e' & He' & [->|(r & -> & ->)]).
        -- eauto.
        -- eexists. split; [exact He'|]. right. exists r. split; reflexivity.
      * rewrite list_lookup_alter_ne, Hkid by exact Hne. eauto.
Qed.

Lemma elementAt_appendChild_below (p r : Path) (child d e : Element) :
  elementAt p d = Some e ->
  elementAt p (appendChild (p ++ r) child d) = Some (appendChild r child e).
Proof.
  revert d. induction p as [|i p IH]; intros d Hp.
  - injection Hp as <-. reflexivity.
  - cbn in Hp. destruct (children d !! i) as [kid|] eqn:Hkid; [|discriminate].
    cbn. rewrite list_lookup_alter_eq, Hkid. cbn. apply IH, Hp.
Qed.

Lemma elementAt_appendChild_apart (q u : Path) (child d e : Element) :
  elementAt q d = Some e -> ~ q `prefix_of` u ->
  elementAt q (appendChild u child d) = Some e.
Proof.
  intros Hq Hapart.
  destruct (elementAt_appendChild q u child d e Hq)
    as (e' & He' & [->|(r & -> & _)]); [exact He'|].
  exfalso. apply Hapart. exists r. reflexivity.
Qed.

Lemma fmap_alter_same {A B} (g : A -> B) (f : A -> A) (i : nat) (l : list A) :
  (forall x, g (f x) = g x) -> g <$> alter f i l = g <$> l.
Proof.
  intros H. revert i. induction l as [|x l IH]; intros [|i]; cbn; auto.
  - rewrite H. reflexivity.
  - f_equal. apply IH.
Qed.

(** Appending a subtree in which nothing matches finds the same elements
    at the same paths. *)
Lemma matching_appendChild_none (sel : Selector) (u : Path) (child d : Element) :
  matching sel child = [] ->
  matching sel (appendChild u child d) = matching sel d.
Proof.
  intros Hnone. revert d. induction u as [|j u IH]; intros [tag classes kids];
    cbn [appendChild tagName classList children matching].
  - rewrite map_app. cbn [map]. rewrite underChildren_snoc, Hnone. cbn.
    rewrite app_nil_r. reflexivity.
  - f_equal. f_equal. apply (fmap_alter_same (matching sel)). exact IH.
Qed.

Lemma sum_alter {A} (g : A -> nat) (f : A -> A) (i m : nat) (l : list A) (x : A) :
  l !! i = Some x -> g (f x) = (g x + m)%nat ->
  sum_list (g <$> alter f i l) = (sum_list (g <$> l) + m)%nat.
Proof.
  revert i. induction l as [|y l IH]; intros [|i] Hi Hg; try discriminate.
  - injection Hi as ->. cbn. lia.
  - cbn. rewrite (IH i Hi Hg). lia.
Qed.

(** Appending at an element of the tree adds what matches in the child. *)
Lemma length_matching_appendChild (sel : Selector) (u : Path) (child d : Element) :
  is_Some (elementAt u d) ->
  List.length (matching sel (appendChild u child d))
  = (List.length (matching sel d) + List.length (matching sel child))%nat.
Proof.
  revert d. induction u as [|j u IH]; intros [tag classes kids] Hu;
    cbn [appendChild tagName classList children matching].
  - rewrite map_app. cbn [map]. rewrite underChildren_snoc.
    rewrite !length_app, length_map. lia.
  - cbn in Hu. destruct (kids !! j) as [kid|] eqn:Hkid; [|destruct Hu; discriminate].
    rewrite !length_app, !length_underChildren.
    change (map (matching sel)) with (fmap (M:=list) (matching sel)).
    rewrite <- !list_fmap_compose.
    rewrite (sum_alter _ _ _ (List.length (matching sel child)) _ kid Hkid).
    + lia.
    + cbn. apply IH, Hu.
Qed.

Lemma length_querySelectorAll_appendChild (sel : Selector) (u : Path)
    (child d : Element) :
  is_Some (elementAt u d) ->
  List.length (querySelectorAll sel (appendChild u child d))
  = (List.length (querySelectorAll sel d) + List.length (matching sel child))%nat.
Proof.
  intros Hu. pose proof (length_matching_appendChild sel u child d Hu) as H.
  rewrite (matching_unfold sel d), (matching_unfold sel (appendChild _ _ _)),
    !length_app in H.
  rewrite tagName_appendChild, classList_appendChild in H. lia.
Qed.

Lemma length_querySelectorAll_appendChild_le (sel : Selector) (u : Path)
    (child d : Element) :
  (List.length (querySelectorAll sel d)
   <= List.length (querySelectorAll sel (appendChild u child d)))%nat.
Proof.
  assert (Hm : forall d,
    (List.length (matching sel d)
     <= List.length (matching sel (appendChild u child d)))%nat).
  { clear d. induction u as [|j u IH]; intros [tag classes kids];
    cbn [appendChild tagName classList children matching].
    - rewrite map_app. cbn [map]. rewrite underChildren_snoc, !length_app. lia.
    - rewrite !length_app, !length_underChildren.
      change (map (matching sel)) with (fmap (M:=list) (matching sel)).
      rewrite <- !list_fmap_compose.
      apply Nat.add_le_mono_l. clear tag classes.
      revert j. induction kids as [|k kids IHk]; intros [|j]; cbn; try lia.
      + specialize (IH k). lia.
      + specialize (IHk j). lia. }
  specialize (Hm d). rewrite !matching_unfold, !length_app in Hm.
  rewrite tagName_appendChild, classList_appendChild in Hm. lia.
Qed.

Lemma buttonsIn_elementAt (d e : Element) (p : Path) :
  elementAt p d = Some e ->
  buttonsIn d p = List.length (querySelectorAll aiReplyBtn e).
Proof. intros H. unfold buttonsIn. rewrite H. reflexivity. Qed.

Lemma hasButtonInjected_count (e : Element) :
  hasButtonInjected e = true <->
  (1 <= List.length (querySelectorAll aiReplyBtn e))%nat.
Proof.
  unfold hasButtonInjected, querySelector.
  destruct (querySelectorAll aiReplyBtn e); cbn; split;
    (lia || discriminate || reflexivity).
Qed.

Lemma hasButtonInjected_none (e : Element) :
  hasButtonInjected e = false <->
  List.length (querySelectorAll aiReplyBtn e) = 0%nat.
Proof.
  unfold hasButtonInjected, querySelector.
  destruct (querySelectorAll aiReplyBtn e); cbn; split;
    (lia || discriminate || reflexivity).
Qed.

Lemma createButton_no_commentBox : matching commentBox createButton = [].
Proof. reflexivity. Qed.

Lemma createButton_one_button :
  List.length (matching aiReplyBtn createButton) = 1%nat.
Proof. reflexivity. Qed.

(** *** One turn of the loop *)

Lemma injectButton_skip (d : Element) (p : Path) :
  (1 <= buttonsIn d p)%nat -> injectButton d p = d.
Proof.
  unfold injectButton, buttonsIn. destruct (elementAt p d) as [e|]; [|reflexivity].
  intros H. apply hasButtonInjected_count in H. rewrite H. reflexivity.
Qed.

Lemma findCommentBoxes_injectButton (d : Element) (p : Path) :
  findCommentBoxes (injectButton d p) = findCommentBoxes d.
Proof.
  unfold injectButton. destruct (elementAt p d) as [e|]; [|reflexivity].
  destruct (hasButtonInjected e); [reflexivity|].
  apply matching_appendChild_none, createButton_no_commentBox.
Qed.

Lemma buttonsIn_injectButton_le (d : Element) (p q : Path) :
  is_Some (elementAt q d) ->
  is_Some (elementAt q (injectButton d p))
  /\ (buttonsIn d q <= buttonsIn (injectButton d p) q)%nat.
Proof.
  intros [e He]. unfold injectButton.
  destruct (elementAt p d) as [box|]; [|split; [eauto | lia]].
  destruct (hasButtonInjected box); [split; [eauto | lia]|].
  destruct (elementAt_appendChild q (p ++ findInsertionPoint box) createButton
              d e He) as (e' & He' & Hrel).
  split; [eauto|]. rewrite (buttonsIn_elementAt _ _ _ He),
    (buttonsIn_elementAt _ _ _ He').
  destruct Hrel as [->|(r & _ & ->)]; [lia|].
  apply length_querySelectorAll_appendChild_le.
Qed.

Lemma buttonsIn_injectButton_self (d : Element) (p : Path) :
  is_Some (elementAt p d) ->
  buttonsIn (injectButton d p) p = Nat.max 1 (buttonsIn d p).
Proof.
  intros [box Hbox]. unfold injectButton. rewrite Hbox.
  destruct (hasButtonInjected box) eqn:Hhas.
  - apply hasButtonInjected_count in Hhas.
    rewrite (buttonsIn_elementAt _ _ _ Hbox). lia.
  - apply hasButtonInjected_none in Hhas.
    rewrite (buttonsIn_elementAt d _ _ Hbox), Hhas.
    rewrite (buttonsIn_elementAt _ _ _
               (elementAt_appendChild_below p _ createButton d box Hbox)).
    rewrite length_querySelectorAll_appendChild
      by apply findInsertionPoint_elementAt.
    rewrite Hhas, createButton_one_button. reflexivity.
Qed.

Lemma buttonsIn_injectButton_apart (d : Element) (p q : Path) :
  is_Some (elementAt q d) ->
  ~ q `prefix_of` p -> ~ p `prefix_of` q ->
  buttonsIn (injectButton d p) q = buttonsIn d q.
Proof.
  intros [e He] Hqp Hpq. unfold injectButton.
  destruct (elementAt p d) as [box|]; [|reflexivity].
  destruct (hasButtonInjected box); [reflexivity|].
  rewrite (buttonsIn_elementAt d _ _ He).
  apply buttonsIn_elementAt, elementAt_appendChild_apart; [exact He|].
  intros Hpre.
  assert (Hp : p `prefix_of` p ++ findInsertionPoint box)
    by (exists (findInsertionPoint box); reflexivity).
  destruct (prefix_weak_total q p _ Hpre Hp); tauto.
Qed.

(** *** The whole loop *)

Lemma fold_injectButton (boxes : list Path) (d : Element) :
  (forall p, p ∈ boxes -> is_Some (elementAt p d)) ->
  let d' := fold_left injectButton boxes d in
  findCommentBoxes d' = findCommentBoxes d
  /\ (forall q, is_Some (elementAt q d) ->
        is_Some (elementAt q d') /\ (buttonsIn d q <= buttonsIn d' q)%nat)
  /\ (forall p, p ∈ boxes -> (1 <= buttonsIn d' p)%nat).
Proof.
  revert d. induction boxes as [|p boxes IH]; intros d Hvalid; cbn [fold_left].
  - split; [reflexivity|]. split; [auto|]. intros p Hp. inversion Hp.
  - assert (Hvalid' : forall q, q ∈ boxes ->
                        is_Some (elementAt q (injectButton d p))).
    { intros q Hq. apply buttonsIn_injectButton_le, Hvalid. now right. }
    destruct (IH (injectButton d p) Hvalid') as (Hboxes & Hmono & Hone).
    split; [rewrite Hboxes; apply findCommentBoxes_injectButton|]. split.
    + intros q Hq. destruct (buttonsIn_injectButton_le d p q Hq) as (Hq' & Hle).
      destruct (Hmono q Hq') as (Hq'' & Hle'). split; [exact Hq'' | lia].
    + intros q Hq. apply elem_of_cons in Hq as [->|Hq]; [|exact (Hone q Hq)].
      assert (Hp : is_Some (elementAt p d)) by (apply Hvalid; now left).
      destruct (Hmono p (proj1 (buttonsIn_injectButton_le d p p Hp))) as (_ & Hle).
      rewrite (buttonsIn_injectButton_self d p Hp) in Hle. lia.
Qed.

Lemma fold_injectButton_skip (boxes : list Path) (d : Element) :
  (forall p, p ∈ boxes -> (1 <= buttonsIn d p)%nat) ->
  fold_left injectButton boxes d = d.
Proof.
  revert d. induction boxes as [|p boxes IH]; intros d Hall; cbn [fold_left];
    [reflexivity|].
  rewrite injectButton_skip by (apply Hall; now left).
  apply IH. intros q Hq. apply Hall. now right.
Qed.

Lemma flat_spec (boxes : list Path) (p q : Path) :
  flat boxes = true -> p ∈ boxes -> q ∈ boxes -> p `prefix_of` q -> p = q.
Proof.
  unfold flat. rewrite forallb_forall. intros Hflat Hp Hq Hpre.
  apply list_elem_of_In in Hp, Hq. specialize (Hflat p Hp).
  rewrite forallb_forall in Hflat. specialize (Hflat q Hq).
  rewrite (bool_decide_eq_true_2 _ Hpre) in Hflat.
  apply bool_decide_eq_true_1 in Hflat. exact Hflat.
Qed.

Lemma fold_injectButton_flat (all boxes : list Path) (d : Element) :
  flat all = true ->
  (forall p, p ∈ all -> is_Some (elementAt p d)) ->
  (forall p, p ∈ all -> (buttonsIn d p <= 1)%nat) ->
  (forall p, p ∈ boxes -> p ∈ all) ->
  forall p, p ∈ all -> (buttonsIn (fold_left injectButton boxes d) p <= 1)%nat.
Proof.
  intros Hflat. revert d.
  induction boxes as [|b boxes IH]; intros d Hvalid Hle Hsub; cbn [fold_left];
    [exact Hle|].
  assert (Hb : b ∈ all) by (apply Hsub; now left).
  apply IH.
  - intros q Hq. apply buttonsIn_injectButton_le, Hvalid, Hq.
  - intros q Hq. destruct (decide (q = b)) as [->|Hne].
    + rewrite buttonsIn_injectButton_self by (apply Hvalid, Hb).
      specialize (Hle b Hb). lia.
    + rewrite buttonsIn_injectButton_apart; [apply Hle, Hq | apply Hvalid, Hq | |].
      * intros Hpre. apply Hne. exact (flat_spec all q b Hflat Hq Hb Hpre).
      * intros Hpre. apply Hne. symmetry.
        exact (flat_spec all b q Hflat Hb Hq Hpre).
  - intros q Hq. apply Hsub. now right.
Qed.

Lemma findCommentBoxes_elementAt (d : Element) (p : Path) :
  p ∈ findCommentBoxes d -> is_Some (elementAt p d).
Proof. apply matching_elementAt. Qed.

Lemma injectButtons_spec (d : Element) :
  findCommentBoxes (injectButtons d) = findCommentBoxes d
  /\ (forall p, p ∈ findCommentBoxes d -> (1 <= buttonsIn (injectButtons d) p)%nat)
  /\ injectButtons (injectButtons d) = injectButtons d.
Proof.
  destruct (fold_injectButton (findCommentBoxes d) d (findCommentBoxes_elementAt d))
    as (Hboxes & _ & Hone).
  fold (injectButtons d) in Hboxes, Hone.
  split; [exact Hboxes|]. split; [exact Hone|].
  unfold injectButtons at 1. rewrite Hboxes.
  apply fold_injectButton_skip, Hone.
Qed.

Lemma scans_once (d : Element) (n : nat) :
  (1 <= n)%nat -> scans n d = injectButtons d.
Proof.
  intros Hn. destruct n as [|n]; [lia|]. clear Hn.
  induction n as [|n IH]; [reflexivity|].
  change (scans (S (S n)) d) with (injectButtons (scans (S n) d)).
  rewrite IH. apply injectButtons_spec.
Qed.

(** C8, as the code has it.  The scan pass is idempotent: on an
    unchanged document, [n >= 1] passes leave what one pass leaves.  After
    them the comment boxes are those of the page, each contains at least
    one action control, and a box that contained one before a turn of the
    loop is skipped by it.  When no comment box lies inside another and no
    box starts with more than one control, every box ends with exactly
    one. *)
Theorem scan_idempotent (document : Element) (n : nat) :
  (1 <= n)%nat ->
  scans n document = injectButtons document
  /\ findCommentBoxes (scans n document) = findCommentBoxes document
  /\ (forall box, box ∈ findCommentBoxes document ->
        (1 <= buttonsIn (scans n document) box)%nat)
  /\ (forall doc box, (1 <= buttonsIn doc box)%nat -> injectButton doc box = doc)
  /\ (flat (findCommentBoxes document) = true ->
      (forall box, box ∈ findCommentBoxes document ->
         (buttonsIn document box <= 1)%nat) ->
      forall box, box ∈ findCommentBoxes document ->
        buttonsIn (scans n document) box = 1%nat).
Proof.
  intros Hn. rewrite (scans_once document n Hn).
  destruct (injectButtons_spec document) as (Hboxes & Hone & _).
  split; [reflexivity|]. split; [exact Hboxes|]. split; [exact Hone|].
  split; [exact injectButton_skip|].
  intros Hflat Hle box Hbox. apply Nat.le_antisymm; [|exact (Hone box Hbox)].
  apply (fold_injectButton_flat (findCommentBoxes document)); auto.
  apply findCommentBoxes_elementAt.
Qed.

(** ** The statements at sample inputs *)

Lemma validateSettings_boundaries_witness :
  validateSettings (as_partial sampleSettings) = Ok tt
  /\ validateSettings (with_maxLength 100 (as_partial sampleSettings)) = Ok tt
  /\ validateSettings (with_rateLimit 0 (as_partial sampleSettings))
     = Throw (Error "Rate limit must be between 1 and 10000").
Proof.
  split; [reflexivity|].
  pose proof (validateSettings_boundaries (as_partial sampleSettings) eq_refl)
    as (_ & H100 & _ & _ & H0 & _).
  exact (conj H100 H0).
Defined.

Lemma sampleWorld_reliable usage start answer :
  reliable (sampleWorld usage start answer).
Proof. intros k. reflexivity. Defined.

Lemma saveSettings_getSettings_roundtrip_witness :
  validateSettings (as_partial sampleSettings) = Ok tt
  /\ exists w1 w2,
      saveSettings sampleSettings
        (mkWorld None None 0 0 (fun _ => 0) (fun _ => None)
                 (fun _ text _ => Ok text) []) = (Ok tt, w1)
      /\ getSettings w1 = (Ok sampleSettings, w2).
Proof.
  split; [reflexivity|].
  destruct (proj1 (saveSettings_getSettings_roundtrip sampleSettings
              (mkWorld None None 0 0 (fun _ => 0) (fun _ => None)
                 (fun _ text _ => Ok text) []))
              eq_refl (fun _ => eq_refl))
    as (w1 & w2 & Hsave & _ & Hget & Hs).
  exists w1, w2. rewrite <- Hs at 2. exact (conj Hsave Hget).
Defined.

Lemma getUsage_default_not_persisted_witness :
  local_usage (sampleWorld None 1000 thanks) = None
  /\ exists w',
      getUsage (sampleWorld None 1000 thanks)
        = (Ok {| count := 0; resetDate := 86401000; limit := 50 |}, w')
      /\ local_usage w' = None.
Proof.
  split; [reflexivity|].
  destruct (getUsage_default_not_persisted (sampleWorld None 1000 thanks)
              (or_introl eq_refl)) as (w' & Hget & Hlocal & _).
  exists w'. exact (conj Hget Hlocal).
Defined.

Lemma window_rollover_witness :
  let stale := {| count := 4; resetDate := 500; limit := 5 |} in
  let w := sampleWorld (Some stale) 1000 thanks in
  resetDate stale <= time w
  /\ (exists w', resetUsageIfExpired w
                 = (Ok {| count := 0; resetDate := 86401000; limit := 5 |}, w'))
  /\ (exists w', trackUsage w
                 = (Ok {| count := 1; resetDate := 86401000; limit := 5 |}, w')).
Proof.
  intros stale w.
  assert (Hexp : resetDate stale <= time w) by (vm_compute; discriminate).
  split; [exact Hexp|].
  destruct (window_rollover w stale eq_refl (sampleWorld_reliable _ _ _) Hexp)
    as ((w1 & H1 & _) & H2).
  split; [exists w1; exact H1|].
  destruct H2 as (w2 & H2 & _); [vm_compute; discriminate|].
  exists w2; exact H2.
Defined.

Lemma sampleWorld_before usage start answer deadline :
  start + 60000 < deadline -> before deadline (sampleWorld usage start answer).
Proof. intros H k. cbn. lia. Defined.

Lemma quota_monotonicity_witness :
  let fresh := {| count := 0; resetDate := 86401000; limit := 5 |} in
  let w := sampleWorld (Some fresh) 1000 thanks in
  before (resetDate fresh) w
  /\ local_usage (afterCalls 5 w)
     = Some {| count := 5; resetDate := 86401000; limit := 5 |}
  /\ denied (fst (trackUsage (afterCalls 5 w))).
Proof.
  intros fresh w.
  assert (Hwin : before (resetDate fresh) w)
    by (apply sampleWorld_before; vm_compute; reflexivity).
  split; [exact Hwin|]. split; [reflexivity|].
  destruct (quota_monotonicity w fresh 5 eq_refl (sampleWorld_reliable _ _ _)
              Hwin) as (u & u' & _ & _ & _ & _ & _ & _ & _ & _ & Hdenied).
  apply Hdenied; reflexivity.
Defined.






Lemma rate_limit_flag_follows_message_witness :
  let fresh := {| count := 0; resetDate := 86401000; limit := 50 |} in
  let w := sampleWorld (Some fresh) 1000 overloaded in
  exists w1 response,
    generateReply trim sampleRequest (tick_clock w)
      = (Throw (Error "Rate limit exceeded for this API key"), w1)
    /\ handleGenerateReply trim sampleRequest w = (Ok response, tick_clock w1)
    /\ success response = false
    /\ rateLimitReached response = Some true.
Proof.
  intros fresh w.
  destruct (generateReply trim sampleRequest (tick_clock w)) as [r w1] eqn:Hbody.
  assert (Hr : r = Throw (Error "Rate limit exceeded for this API key"))
    by (apply (f_equal fst) in Hbody; vm_compute in Hbody; congruence).
  subst r.
  destruct (rate_limit_flag_follows_message trim sampleRequest w w1 _ Hbody)
    as (response & Hrun & Hfail & _ & Hflag).
  exists w1, response. auto.
Defined.

Lemma scan_idempotent_witness :
  (1 <= 3)%nat
  /\ scans 3 samplePage = injectButtons samplePage
  /\ findCommentBoxes samplePage = [[0; 1]; [1; 0]]%nat
  /\ buttonsIn (scans 3 samplePage) [0; 1]%nat = 1%nat
  /\ buttonsIn (scans 3 samplePage) [1; 0]%nat = 1%nat.
Proof.
  assert (Hn : (1 <= 3)%nat) by (repeat constructor).
  split; [exact Hn|].
  destruct (scan_idempotent samplePage 3 Hn) as (Hsame & _ & _ & _ & Hone).
  split; [exact Hsame|]. split; [reflexivity|].
  assert (Hle : forall box, box ∈ findCommentBoxes samplePage ->
                  (buttonsIn samplePage box <= 1)%nat).
  { intros box Hbox. apply list_elem_of_In in Hbox.
    destruct Hbox as [<-|[<-|[]]]; repeat constructor. }
  split; apply (Hone eq_refl Hle), list_elem_of_In; cbn; auto.
Defined.

(** C8, as stated, fails: on a page without controls whose comment box
    holds the form (itself a comment box) and, beside it, the toolbar, one
    scan pass leaves two action controls inside the outer box. *)
Lemma scan_leaves_two_controls_in_nested_box :
  findCommentBoxes nestedPage = [[0]; [0; 0]]%nat
  /\ buttonsIn nestedPage [0]%nat = 0%nat
  /\ buttonsIn (scans 1 nestedPage) [0]%nat = 2%nat
  /\ ~ (forall box, box ∈ findCommentBoxes nestedPage ->
          buttonsIn (scans 1 nestedPage) box = 1%nat).
Proof.
  split; [reflexivity|]. split; [reflexivity|]. split; [reflexivity|].
  intros H. specialize (H [0%nat]). discriminate H. left.
Qed.

(** * Further properties *)

(** ** The ledger's other operations *)

Lemma resetUsage_run (w w1 : World) (usage : UsageData) :
  getUsage w = (Ok usage, w1) ->
  resetUsage w =
    let fresh := {| count := 0; resetDate := time w1 + DAY; limit := limit usage |} in
    match fault_at w1 (io_ops w1) with
    | Some _ => (Throw (Error "Failed to save usage data"%string),
                 log_op (LocalSet fresh) (tick_clock w1))
    | None => (Ok fresh, write_local fresh (log_op (LocalSet fresh) (tick_clock w1)))
    end.
Proof.
  intros Hget. unfold resetUsage, try_catch, bind. rewrite Hget.
  unfold date_now at 1. cbn beta iota zeta. rewrite saveUsage_run. cbn.
  destruct (fault_at w1 (io_ops w1)); reflexivity.
Qed.

(** X1. A manual reset returns and stores count 0 and a window of 24
    hours from now, whatever the count was and whether or not the old
    window had ended; it keeps the record's limit.  When no record is
    stored the limit is the default 50. *)
Theorem resetUsage_resets (w : World) :
  reliable w ->
  let kept := match local_usage w with
              | Some u => limit u
              | None => 50
              end in
  let now := match local_usage w with
             | Some _ => time w
             | None => now_at w (S (clock_reads w))
             end in
  let fresh := {| count := 0; resetDate := now + 24 * 60 * 60 * 1000;
                  limit := kept |} in
  exists w',
    resetUsage w = (Ok fresh, w')
    /\ local_usage w' = Some fresh
    /\ sync_settings w' = sync_settings w
    /\ ledgerWrites (trace w') = ledgerWrites (trace w) ++ [LocalSet fresh].
Proof.
  intros Hrel kept now fresh.
  pose proof (getUsage_run w) as Hget. rewrite (Hrel _) in Hget.
  subst fresh kept now. destruct (local_usage w) as [u|].
  - rewrite (resetUsage_run _ _ _ Hget). cbn. rewrite (Hrel _).
    eexists. repeat split. cbn. unfold ledgerWrites.
    rewrite !List.filter_app. cbn. now rewrite app_nil_r.
  - rewrite (resetUsage_run _ _ _ Hget). cbn. rewrite (Hrel _).
    eexists. repeat split. cbn. unfold ledgerWrites.
    rewrite !List.filter_app. cbn. now rewrite app_nil_r.
Qed.

(** X2. A manual reset lifts a denial: when the limit is at least 1, the
    call of [trackUsage] that follows a reset within 24 hours succeeds
    with count 1, whatever the count was before. *)
Theorem resetUsage_then_trackUsage (w : World) (u : UsageData) :
  local_usage w = Some u -> reliable w -> 1 <= limit u ->
  now_at w (S (clock_reads w)) < time w + 24 * 60 * 60 * 1000 ->
  let consumed := {| count := 1; resetDate := time w + 24 * 60 * 60 * 1000;
                     limit := limit u |} in
  exists w',
    trackUsage (snd (resetUsage w)) = (Ok consumed, w')
    /\ local_usage w' = Some consumed.
Proof.
  intros Hu Hrel Hlimit Hclock consumed.
  pose proof (getUsage_run w) as Hget. rewrite (Hrel _), Hu in Hget.
  rewrite (resetUsage_run _ _ _ Hget). cbn zeta.
  cbn [fault_at io_ops log_op tick_clock]. rewrite (Hrel _). cbn [snd].
  match goal with |- context [trackUsage ?w1] =>
    rewrite (trackUsage_in_window w1
               {| count := 0; resetDate := time w + DAY; limit := limit u |}
               eq_refl Hrel Hclock)
  end.
  cbn [count limit]. replace (0 >=? limit u) with false by (symmetry; lia).
  eexists. split; reflexivity.
Qed.

Lemma checkRateLimit_run (w : World) :
  checkRateLimit w =
    match resetUsageIfExpired w with
    | (Ok usage, w1) =>
        (Ok {| Status.limitReached := count usage >=? limit usage;
               Status.currentCount := count usage;
               Status.limit := limit usage;
               Status.timeUntilReset := timeUntilResetAt (resetDate usage) (time w1);
               Status.resetDate := resetDate usage |}, tick_clock w1)
    | (Throw e, w1) => (Throw e, w1)
    end.
Proof.
  unfold checkRateLimit, try_catch, bind.
  destruct (resetUsageIfExpired w) as [[usage|e] w1]; reflexivity.
Qed.

(** X3. [checkRateLimit] and [trackUsage] agree.  Run in the same world,
    [checkRateLimit] reports [limitReached] exactly when [trackUsage]
    throws the rate-limit error, and that error carries the count, the
    limit and the remaining time of the report; when it reports that the
    limit is not reached, [trackUsage] returns the incremented record or
    fails on the write.  [checkRateLimit] itself consumes nothing: it
    leaves the store as the lazy roll left it. *)
Theorem checkRateLimit_agrees_with_trackUsage (w : World) :
  match checkRateLimit w with
  | (Ok status, wc) =>
      exists usage w1,
        resetUsageIfExpired w = (Ok usage, w1)
        /\ local_usage wc = local_usage w1
        /\ Status.currentCount status = count usage
        /\ Status.limit status = limit usage
        /\ Status.resetDate status = resetDate usage
        /\ (Status.limitReached status = true ->
            trackUsage w =
              (Throw (Error (rateLimitMessage (Status.timeUntilReset status) usage)),
               wc))
        /\ (Status.limitReached status = false ->
            fst (trackUsage w) = Ok (increment usage)
            \/ fst (trackUsage w) = Throw (Error "Failed to save usage data"%string))
  | (Throw e, wc) => trackUsage w = (Throw e, wc)
  end.
Proof.
  rewrite checkRateLimit_run, trackUsage_run.
  destruct (resetUsageIfExpired w) as [[usage|e] w1]; [|reflexivity].
  exists usage, w1. cbn [Status.limitReached Status.currentCount Status.limit
    Status.resetDate Status.timeUntilReset].
  repeat split.
  - intros ->. reflexivity.
  - intros ->. destruct (fault_at w1 (io_ops w1)); cbn; auto.
Qed.

Lemma getRemainingUsage_run (w : World) :
  getRemainingUsage w =
    match resetUsageIfExpired w with
    | (Ok usage, w1) => (Ok (Z.max 0 (limit usage - count usage)), w1)
    | (Throw _, w1) => (Ok 0, w1)
    end.
Proof.
  unfold getRemainingUsage, try_catch, bind.
  destruct (resetUsageIfExpired w) as [[usage|e] w1]; reflexivity.
Qed.

Lemma wouldExceedLimit_run (additionalUsage : Z) (w : World) :
  wouldExceedLimit additionalUsage w =
    match resetUsageIfExpired w with
    | (Ok usage, w1) => (Ok (count usage + additionalUsage >? limit usage), w1)
    | (Throw _, w1) => (Ok true, w1)
    end.
Proof.
  unfold wouldExceedLimit, try_catch, bind.
  destruct (resetUsageIfExpired w) as [[usage|e] w1]; reflexivity.
Qed.

(** X4. [getRemainingUsage] never throws and is never negative.  It is
    0 exactly when [checkRateLimit], run in the same world, reports the
    limit reached, and also when the lazy roll fails; otherwise it is
    [limit - count]. *)
Theorem getRemainingUsage_agrees_with_checkRateLimit (w : World) :
  exists remaining w',
    getRemainingUsage w = (Ok remaining, w')
    /\ 0 <= remaining
    /\ match checkRateLimit w with
       | (Ok status, _) =>
           (remaining = 0 <-> Status.limitReached status = true)
           /\ (Status.limitReached status = false ->
               remaining = Status.limit status - Status.currentCount status)
       | (Throw _, _) => remaining = 0
       end.
Proof.
  rewrite getRemainingUsage_run, checkRateLimit_run.
  destruct (resetUsageIfExpired w) as [[usage|e] w1];
    eexists _, _; (split; [reflexivity|]); (split; [lia|]);
    [|reflexivity].
  cbn [Status.limitReached Status.limit Status.currentCount].
  split; [split|]; lia.
Qed.

(** X5. [wouldExceedLimit] never throws.  For one more use it answers
    what [checkRateLimit] reports as [limitReached]; for [k] more uses
    and a count within the limit it answers whether [k] exceeds what
    [getRemainingUsage] returns; when the lazy roll fails it answers
    [true]. *)
Theorem wouldExceedLimit_agrees (additionalUsage : Z) (w : World) :
  exists answer w',
    wouldExceedLimit additionalUsage w = (Ok answer, w')
    /\ match resetUsageIfExpired w with
       | (Ok usage, _) =>
           (additionalUsage = 1 ->
            exists status wc,
              checkRateLimit w = (Ok status, wc)
              /\ answer = Status.limitReached status)
           /\ (count usage <= limit usage ->
               exists remaining wr,
                 getRemainingUsage w = (Ok remaining, wr)
                 /\ (answer = true <-> remaining < additionalUsage))
       | (Throw _, _) => answer = true
       end.
Proof.
  rewrite wouldExceedLimit_run, checkRateLimit_run, getRemainingUsage_run.
  destruct (resetUsageIfExpired w) as [[usage|e] w1];
    eexists _, _; (split; [reflexivity|]); [|reflexivity].
  split.
  - intros ->. eexists _, _. split; [reflexivity|].
    cbn [Status.limitReached].
    destruct (count usage + 1 >? limit usage) eqn:H1;
      destruct (count usage >=? limit usage) eqn:H2; lia.
  - intros Hle. eexists _, _. split; [reflexivity|]. split; lia.
Qed.

(** X6. Within the window, a successful [trackUsage] lowers what
    [getRemainingUsage] returns by exactly one. *)
Theorem trackUsage_lowers_remaining (w : World) (u : UsageData) :
  local_usage w = Some u -> reliable w -> before (resetDate u) w ->
  count u < limit u ->
  exists w1 w2 w3,
    getRemainingUsage w = (Ok (limit u - count u), w1)
    /\ trackUsage w = (Ok (increment u), w2)
    /\ getRemainingUsage w2 = (Ok (limit u - count u - 1), w3).
Proof.
  intros Hu Hrel Hwin Hlt.
  rewrite getRemainingUsage_run, (resetUsageIfExpired_stored w u Hu Hrel).
  replace (time w >=? resetDate u) with false
    by (symmetry; specialize (Hwin (clock_reads w)); unfold time; lia).
  rewrite (trackUsage_in_window w u Hu Hrel) by apply Hwin.
  replace (count u >=? limit u) with false by (symmetry; lia).
  eexists _, _, _. split; [f_equal; f_equal; lia|]. split; [reflexivity|].
  rewrite getRemainingUsage_run.
  match goal with |- context [resetUsageIfExpired ?w2] =>
    rewrite (resetUsageIfExpired_stored w2 (increment u) eq_refl Hrel)
  end.
  cbn [resetDate increment].
  replace (_ >=? resetDate u) with false
    by (symmetry; specialize (Hwin (S (clock_reads w))); cbn; lia).
  cbn [limit count increment]. f_equal. f_equal. lia.
Qed.

Lemma updateRateLimit_run (newLimit : Z) (w : World) :
  updateRateLimit newLimit w =
    if newLimit <? 1
    then (Throw (Error "Rate limit must be at least 1"%string), w)
    else match getUsage w with
         | (Ok usage, w1) => saveUsage (with_limit newLimit usage) w1
         | (Throw e, w1) => (Throw e, w1)
         end.
Proof.
  unfold updateRateLimit, try_catch, bind.
  destruct (newLimit <? 1); [reflexivity|].
  destruct (getUsage w) as [[usage|e] w1]; [|reflexivity].
  destruct (saveUsage _ w1) as [[[]|e] w2]; reflexivity.
Qed.

(** X7. [updateRateLimit] refuses a limit below 1 before touching the
    store.  Any limit from 1 up, with no upper bound, replaces the limit
    of the stored record and leaves its count and window as they were. *)
Theorem updateRateLimit_sets_limit_only (newLimit : Z) (w : World) (u : UsageData) :
  local_usage w = Some u -> reliable w ->
  (newLimit < 1 ->
   updateRateLimit newLimit w
   = (Throw (Error "Rate limit must be at least 1"%string), w))
  /\ (1 <= newLimit ->
      exists w',
        updateRateLimit newLimit w = (Ok tt, w')
        /\ local_usage w'
           = Some {| count := count u; resetDate := resetDate u;
                     limit := newLimit |}
        /\ sync_settings w' = sync_settings w).
Proof.
  intros Hu Hrel. rewrite updateRateLimit_run. split; intros Hn.
  - replace (newLimit <? 1) with true by (symmetry; lia). reflexivity.
  - replace (newLimit <? 1) with false by (symmetry; lia).
    rewrite getUsage_run, (Hrel _), Hu, saveUsage_run. cbn.
    rewrite (Hrel _). eexists. repeat split.
Qed.

(** X8. [updateRateLimit] does not keep the count within the limit:
    after it, within the window, [trackUsage] succeeds when the count is
    below the new limit and is denied otherwise, the stored count then
    exceeding or equalling the limit it is compared with. *)
Theorem updateRateLimit_then_trackUsage (newLimit : Z) (w : World) (u : UsageData) :
  local_usage w = Some u -> reliable w -> before (resetDate u) w ->
  1 <= newLimit ->
  let updated := with_limit newLimit u in
  let w1 := snd (updateRateLimit newLimit w) in
  local_usage w1 = Some updated
  /\ (count u < newLimit -> fst (trackUsage w1) = Ok (increment updated))
  /\ (newLimit <= count u ->
      denied (fst (trackUsage w1))
      /\ local_usage (snd (trackUsage w1)) = Some updated).
Proof.
  intros Hu Hrel Hwin Hn updated w1. subst w1.
  rewrite updateRateLimit_run.
  replace (newLimit <? 1) with false by (symmetry; lia).
  rewrite getUsage_run, (Hrel _), Hu, saveUsage_run. cbn [fault_at io_ops log_op].
  rewrite (Hrel _). cbn [snd]. split; [reflexivity|].
  match goal with |- context [trackUsage ?w1] =>
    rewrite (trackUsage_in_window w1 updated eq_refl Hrel (Hwin _))
  end.
  cbn [count limit with_limit updated]. split; intros H.
  - replace (count u >=? newLimit) with false by (symmetry; lia). reflexivity.
  - replace (count u >=? newLimit) with true by (symmetry; lia).
    split; [eexists _, _; reflexivity | reflexivity].
Qed.

Lemma with_limit_same (u : UsageData) : with_limit (limit u) u = u.
Proof. destruct u; reflexivity. Qed.

Lemma updateUsageLimit_stored (w : World) (u : UsageData) :
  local_usage w = Some u -> reliable w ->
  updateUsageLimit w =
    let w1 := log_op LocalGet (log_op SyncGet w) in
    let updated := with_limit (rateLimit (storedSettings w)) u in
    if limit u =? rateLimit (storedSettings w) then (Ok tt, w1)
    else (Ok tt, write_local updated (log_op (LocalSet updated) w1)).
Proof.
  intros Hu Hrel. unfold updateUsageLimit, try_catch, bind.
  rewrite getSettings_run, (Hrel _), getUsage_run. cbn [fault_at io_ops log_op
    local_usage]. rewrite (Hrel _), Hu.
  change (storedSettings _) with (storedSettings w). cbn zeta.
  destruct (limit u =? rateLimit (storedSettings w)); cbn [negb]; [reflexivity|].
  rewrite saveUsage_run. cbn [fault_at io_ops log_op]. rewrite (Hrel _).
  reflexivity.
Qed.

(** X9. [updateUsageLimit] brings the stored record's limit to the
    saved [rateLimit] and leaves its count and window alone.  It writes
    only when the two differ, so running it again writes nothing. *)
Theorem updateUsageLimit_syncs_limit (w : World) (u : UsageData) :
  local_usage w = Some u -> reliable w ->
  let wanted := rateLimit (storedSettings w) in
  let updated := {| count := count u; resetDate := resetDate u;
                    limit := wanted |} in
  exists w',
    updateUsageLimit w = (Ok tt, w')
    /\ local_usage w' = Some updated
    /\ ledgerWrites (trace w')
       = ledgerWrites (trace w)
         ++ (if limit u =? wanted then [] else [LocalSet updated])
    /\ ledgerWrites (trace (snd (updateUsageLimit w'))) = ledgerWrites (trace w')
    /\ local_usage (snd (updateUsageLimit w')) = Some updated.
Proof.
  intros Hu Hrel wanted updated.
  rewrite (updateUsageLimit_stored w u Hu Hrel). cbn zeta. fold wanted.
  change (with_limit wanted u) with updated.
  assert (Hagain : forall w1, local_usage w1 = Some updated -> reliable w1 ->
            storedSettings w1 = storedSettings w ->
            ledgerWrites (trace (snd (updateUsageLimit w1)))
            = ledgerWrites (trace w1)
            /\ local_usage (snd (updateUsageLimit w1)) = Some updated).
  { intros w1 H1 Hrel1 Hs. rewrite (updateUsageLimit_stored w1 _ H1 Hrel1).
    cbn zeta. rewrite Hs. fold wanted. cbn [limit updated].
    rewrite Z.eqb_refl. cbn [snd trace log_op local_usage]. split; [|exact H1].
    unfold ledgerWrites. rewrite !List.filter_app. cbn. now rewrite !app_nil_r. }
  destruct (limit u =? wanted) eqn:Hsame.
  - apply Z.eqb_eq in Hsame.
    assert (Hu' : u = updated) by (subst updated; rewrite <- Hsame; now destruct u).
    eexists. split; [reflexivity|]. cbn [local_usage log_op trace].
    split; [rewrite Hu; f_equal; exact Hu'|].
    split; [unfold ledgerWrites; rewrite !List.filter_app; cbn;
            now rewrite !app_nil_r|].
    apply Hagain; [cbn; rewrite Hu; f_equal; exact Hu' | exact Hrel | reflexivity].
  - eexists. split; [reflexivity|]. cbn [local_usage write_local log_op trace].
    split; [reflexivity|].
    split; [unfold ledgerWrites; rewrite !List.filter_app; cbn;
            now rewrite !app_nil_r|].
    apply Hagain; [reflexivity | exact Hrel | reflexivity].
Qed.

(** X10. Saving settings does not touch the usage record: a new
    [rateLimit] does not apply to the running window.  After a successful
    save, within the window, [trackUsage] is still decided by the limit in
    the stored record. *)
Theorem saveSettings_keeps_window_limit (s : UserSettings) (w : World)
    (u : UsageData) :
  validateSettings (as_partial s) = Ok tt ->
  local_usage w = Some u -> reliable w -> before (resetDate u) w ->
  let w1 := snd (saveSettings s w) in
  storedSettings w1 = s
  /\ local_usage w1 = Some u
  /\ (limit u <= count u -> denied (fst (trackUsage w1)))
  /\ (count u < limit u -> fst (trackUsage w1) = Ok (increment u)).
Proof.
  intros Hv Hu Hrel Hwin w1. subst w1.
  rewrite (saveSettings_valid _ _ Hv), (Hrel _). cbn [snd].
  split; [unfold storedSettings; cbn; apply spread_as_partial|].
  split; [exact Hu|].
  match goal with |- context [trackUsage ?w1] =>
    rewrite (trackUsage_in_window w1 u Hu Hrel (Hwin _))
  end.
  split; intros H.
  - replace (count u >=? limit u) with true by (symmetry; lia).
    eexists _, _; reflexivity.
  - replace (count u >=? limit u) with false by (symmetry; lia). reflexivity.
Qed.

(** X11. However [saveSettings] fails, through any validation rule or
    through the store, what it throws is the one error ["Failed to save
    settings"], and neither storage area has changed. *)
Theorem saveSettings_failure (s : UserSettings) (w w' : World) (e : exn) :
  saveSettings s w = (Throw e, w') ->
  e = Error "Failed to save settings"%string
  /\ sync_settings w' = sync_settings w
  /\ local_usage w' = local_usage w.
Proof.
  destruct (validateSettings (as_partial s)) as [[]|e0] eqn:Hv.
  - rewrite (saveSettings_valid _ _ Hv).
    destruct (fault_at w (io_ops w)); [|discriminate].
    intros H; injection H as <- <-. auto.
  - rewrite saveSettings_invalid by congruence.
    intros H; injection H as <- <-. auto.
Qed.

Lemma handleToneChange_run (newTone : string) (w : World) :
  handleToneChange newTone w =
    let loaded := match fault_at w (io_ops w) with
                  | Some _ => DEFAULT_SETTINGS
                  | None => storedSettings w
                  end in
    match saveSettings (with_tone newTone loaded) (log_op SyncGet w) with
    | (Ok _, w') => (Ok tt, w')
    | (Throw _, w') => (Ok tt, w')
    end.
Proof.
  unfold handleToneChange, try_catch, bind. rewrite getSettings_run. cbn zeta.
  destruct (saveSettings _ _) as [[[]|e] w']; reflexivity.
Qed.

Lemma validateSettings_with_tone (newTone : string) (s : UserSettings) :
  validateSettings (as_partial s) = Ok tt ->
  validateSettings (as_partial (with_tone newTone s))
  = if array_includes validTones newTone then Ok tt
    else Throw (Error "Invalid tone. Must be one of: polite, professional, friendly, concise"%string).
Proof.
  destruct s as [k t m a r sm]. unfold validateSettings, as_partial, with_tone.
  cbn [when_defined seq_checks p_apiKey p_tone p_maxLength p_defaultAction
       p_rateLimit apiKey tone maxLength defaultAction rateLimit stealthMode].
  intros H.
  repeat match type of H with
         | context [guard ?b _] =>
             destruct b eqn:?; cbn [guard seq_checks] in H; try discriminate H
         end.
  destruct (array_includes validTones newTone); reflexivity.
Qed.

(** X12. The popup's tone change.  With working storage and valid
    saved settings, choosing one of the four tones stores the saved
    settings with the tone replaced and every other field as it was.  A
    value that is not one of the four tones changes nothing in the store,
    and no error leaves the handler. *)
Theorem handleToneChange_changes_tone_only (newTone : string) (w : World) :
  reliable w ->
  validateSettings (as_partial (storedSettings w)) = Ok tt ->
  exists w',
    handleToneChange newTone w = (Ok tt, w')
    /\ local_usage w' = local_usage w
    /\ (array_includes validTones newTone = true ->
        storedSettings w'
        = {| apiKey := apiKey (storedSettings w); tone := newTone;
             maxLength := maxLength (storedSettings w);
             defaultAction := defaultAction (storedSettings w);
             rateLimit := rateLimit (storedSettings w);
             stealthMode := stealthMode (storedSettings w) |})
    /\ (array_includes validTones newTone = false ->
        sync_settings w' = sync_settings w).
Proof.
  intros Hrel Hvalid. rewrite handleToneChange_run, (Hrel _). cbn zeta.
  pose proof (validateSettings_with_tone newTone _ Hvalid) as Hv.
  destruct (array_includes validTones newTone).
  - rewrite (saveSettings_valid _ _ Hv). cbn [fault_at io_ops log_op].
    rewrite (Hrel _). eexists. split; [reflexivity|]. split; [reflexivity|].
    split; [|discriminate]. intros _. unfold storedSettings at 1.
    cbn [sync_settings write_sync]. apply spread_as_partial.
  - rewrite saveSettings_invalid by (rewrite Hv; discriminate).
    eexists. split; [reflexivity|]. split; [reflexivity|].
    split; [discriminate | reflexivity].
Qed.

(** X13. A failed read costs the saved settings: when the read of the
    settings fails and the write that follows succeeds, a tone change in
    the popup stores the defaults with the chosen tone, so the saved API
    key is replaced by the empty one. *)
Theorem handleToneChange_after_failed_read (newTone : string) (w : World)
    (e : exn) :
  fault_at w (io_ops w) = Some e ->
  fault_at w (S (io_ops w)) = None ->
  array_includes validTones newTone = true ->
  exists w',
    handleToneChange newTone w = (Ok tt, w')
    /\ storedSettings w'
       = {| apiKey := EmptyString; tone := newTone; maxLength := 500;
            defaultAction := "insert"; rateLimit := 50; stealthMode := true |}.
Proof.
  intros Hread Hwrite Htone. rewrite handleToneChange_run, Hread. cbn zeta.
  assert (Hv : validateSettings (as_partial (with_tone newTone DEFAULT_SETTINGS))
               = Ok tt)
    by (rewrite (validateSettings_with_tone newTone DEFAULT_SETTINGS eq_refl),
          Htone; reflexivity).
  rewrite (saveSettings_valid _ _ Hv). cbn [fault_at io_ops log_op].
  rewrite Hwrite. eexists. split; [reflexivity|].
  unfold storedSettings. cbn [sync_settings write_sync].
  apply spread_as_partial.
Qed.

(** ** The gateway and the listener *)

Section GatewayMore.

Variable sanitizePostText : string -> string.

Lemma handleGenerateReply_total (request : GenerateReplyRequest) (w : World) :
  exists response w',
    handleGenerateReply sanitizePostText request w = (Ok response, w').
Proof.
  rewrite handleGenerateReply_run, generateReply_run.
  destruct (validatePostText (postText request)) as [[]|e];
    [|eexists _, _; reflexivity].
  cbn zeta. destruct (apiKeyMissing _); [eexists _, _; reflexivity|].
  unfold afterGates. destruct (trackUsage _) as [[usage|e] w2];
    [|eexists _, _; reflexivity].
  cbn zeta. destruct (gemini_at w2 _ _ _) as [generated|e];
    eexists _, _; reflexivity.
Qed.

(** X14. [handleGenerateReply] never rejects.  Every request is
    answered, either with [success: true], a reply, the usage count and
    [rateLimitReached: false], or with [success: false] and an error
    message, [rateLimitReached] telling whether that message contains
    ["Rate limit"]. *)
Theorem handleGenerateReply_always_answers (request : GenerateReplyRequest)
    (w : World) :
  exists response w',
    handleGenerateReply sanitizePostText request w = (Ok response, w')
    /\ if success response
       then (exists text used,
               reply response = Some text /\ usageCount response = Some used)
            /\ error response = None
            /\ rateLimitReached response = Some false
       else reply response = None
            /\ usageCount response = None
            /\ exists message,
                 error response = Some message
                 /\ rateLimitReached response
                    = Some (includes "Rate limit" message).
Proof.
  rewrite handleGenerateReply_run, generateReply_run.
  assert (Hfail : forall e,
            reply (failure e) = None
            /\ usageCount (failure e) = None
            /\ exists message,
                 error (failure e) = Some message
                 /\ rateLimitReached (failure e)
                    = Some (includes "Rate limit" message)).
  { intros e. split; [reflexivity|]. split; [reflexivity|].
    destruct e; eexists; split; reflexivity. }
  destruct (validatePostText (postText request)) as [[]|e];
    [|eexists _, _; split; [reflexivity | apply Hfail]].
  cbn zeta. destruct (apiKeyMissing _);
    [eexists _, _; split; [reflexivity | apply Hfail]|].
  unfold afterGates. destruct (trackUsage _) as [[usage|e] w2];
    [|eexists _, _; split; [reflexivity | apply Hfail]].
  cbn zeta. destruct (gemini_at w2 _ _ _) as [generated|e];
    [|eexists _, _; split; [reflexivity | apply Hfail]].
  eexists _, _. split; [reflexivity|]. cbn.
  split; [eexists _, _; split; reflexivity | split; reflexivity].
Qed.

(** X15. The message listener.  A [GENERATE_REPLY] message is answered
    with exactly one response, the one [handleGenerateReply] resolves to;
    a [GET_SETTINGS] message with exactly one settings response, never an
    error; for both the listener returns [true].  For any other type it
    returns [false], sends nothing and leaves the world as it was. *)
Theorem onMessage_dispatch (message : Message) (w : World) :
  (messageType message = "GENERATE_REPLY"%string ->
   exists response w',
     handleGenerateReply sanitizePostText (payload message) w = (Ok response, w')
     /\ onMessage sanitizePostText message w
        = (Ok (true, [ReplyResponse response]), w'))
  /\ (messageType message = "GET_SETTINGS"%string ->
      exists settings w',
        getSettings w = (Ok settings, w')
        /\ onMessage sanitizePostText message w
           = (Ok (true, [SettingsResponse settings]), w'))
  /\ (messageType message <> "GENERATE_REPLY"%string ->
      messageType message <> "GET_SETTINGS"%string ->
      onMessage sanitizePostText message w = (Ok (false, []), w)).
Proof.
  unfold onMessage. split; [|split].
  - intros ->. cbn [String.eqb Ascii.eqb Bool.eqb].
    destruct (handleGenerateReply_total (payload message) w)
      as (response & w' & Hrun).
    exists response, w'. split; [exact Hrun|].
    unfold try_catch, bind. rewrite Hrun. reflexivity.
  - intros ->. cbn [String.eqb Ascii.eqb Bool.eqb].
    eexists _, _. split; [apply getSettings_run|].
    unfold try_catch, bind. rewrite getSettings_run. reflexivity.
  - intros H1 H2. apply String.eqb_neq in H1, H2. rewrite H1, H2. reflexivity.
Qed.



End GatewayMore.

(** ** Text utilities *)

Section TextFacts.

#[local] Open Scope string_scope.
#[local] Open Scope Z_scope.

Lemma chars_append (a b : string) : chars (a ++ b) = (chars a ++ chars b)%list.
Proof. induction a as [|c a IH]; cbn; [reflexivity | now rewrite IH]. Qed.

Lemma string_app_assoc (a b c : string) : (a ++ b) ++ c = a ++ (b ++ c).
Proof. induction a as [|x a IH]; cbn; [reflexivity | now rewrite IH]. Qed.

Lemma chars_removeAll (class : ascii -> bool) (s : string) :
  chars (removeAll class s) = List.filter (fun c => negb (class c)) (chars s).
Proof.
  induction s as [|c s IH]; cbn; [reflexivity|].
  destruct (class c); cbn; now rewrite IH.
Qed.


Lemma removeAll_clean (class : ascii -> bool) (s : string) :
  Forall (fun c => class c = false) (chars s) -> removeAll class s = s.
Proof.
  induction s as [|c s IH]; cbn; [reflexivity|].
  intros H. inversion H as [|? ? Hc Hs]; subst. rewrite Hc, IH by exact Hs.
  reflexivity.
Qed.


Ltac split_char c :=
  destruct (Ascii.eqb_spec c Chars.amp);
  [|destruct (Ascii.eqb_spec c Chars.lt);
    [|destruct (Ascii.eqb_spec c Chars.gt);
      [|destruct (Ascii.eqb_spec c Chars.quote);
        [|destruct (Ascii.eqb_spec c Chars.apostrophe);
          [|destruct (Ascii.eqb_spec c Chars.slash)]]]]].

Lemma escapeChar_plain (c : ascii) :
  htmlSpecial c = false -> escapeChar c = String c EmptyString.
Proof.
  unfold htmlSpecial, escapeChar. split_char c; cbn; (discriminate || reflexivity).
Qed.

Lemma escapeChar_markup_free (c : ascii) :
  Forall (fun d => markupChar d = false) (chars (escapeChar c)).
Proof.
  unfold escapeChar. split_char c; cbn; repeat constructor.
  unfold markupChar.
  repeat match goal with
         | H : c <> _ |- _ => apply Ascii.eqb_neq in H; rewrite H; clear H
         end.
  reflexivity.
Qed.

(** X18. The output of [escapeHtml] contains no [<], [>], quote,
    apostrophe or slash, whatever the text; a text without those
    characters and without [&] comes back unchanged, and escaping
    distributes over concatenation. *)
Theorem escapeHtml_markup_free (text : string) :
  Forall (fun c => markupChar c = false) (chars (escapeHtml text))
  /\ (Forall (fun c => htmlSpecial c = false) (chars text) ->
      escapeHtml text = text)
  /\ (forall more, escapeHtml (text ++ more) = escapeHtml text ++ escapeHtml more).
Proof.
  split; [|split].
  - induction text as [|c text IH]; cbn [escapeHtml]; [constructor|].
    rewrite chars_append. apply Forall_app. split;
      [apply escapeChar_markup_free | exact IH].
  - induction text as [|c text IH]; cbn [escapeHtml chars]; [reflexivity|].
    intros H. inversion H as [|? ? Hc Ht]; subst.
    rewrite (escapeChar_plain c Hc), (IH Ht). reflexivity.
  - intros more. induction text as [|c text IH]; cbn [escapeHtml append];
      [reflexivity|].
    rewrite IH. symmetry. apply string_app_assoc.
Qed.

(** X19. [escapeHtml] loses nothing: two texts with the same escaped
    form are the same text. *)
Theorem escapeHtml_injective (a b : string) :
  escapeHtml a = escapeHtml b -> a = b.
Proof.
  revert b. induction a as [|c a IH]; intros [|d b] H; cbn [escapeHtml] in H.
  - reflexivity.
  - exfalso. revert H. unfold escapeChar. split_char d; cbn; discriminate.
  - exfalso. revert H. unfold escapeChar. split_char c; cbn; discriminate.
  - revert H. unfold escapeChar.
    split_char c; split_char d; subst; cbn [append];
      intros H; try discriminate H;
      try (injection H as H; f_equal; apply IH; exact H);
      unfold Chars.amp, Chars.lt, Chars.gt, Chars.quote, Chars.apostrophe,
        Chars.slash in *;
      injection H as Hc H; try congruence.
    subst d. f_equal. apply IH, H.
Qed.

Lemma chars_substring_0 (m : nat) (s : string) :
  chars (String.substring 0 m s) = take m (chars s).
Proof.
  revert s. induction m as [|m IH]; intros [|c s]; cbn; try reflexivity.
  now rewrite IH.
Qed.

Lemma length_chars (s : string) : List.length (chars s) = String.length s.
Proof. induction s as [|c s IH]; cbn; [reflexivity | now rewrite IH]. Qed.

Lemma chars_inj (a b : string) : chars a = chars b -> a = b.
Proof.
  intros H. rewrite <- (string_of_list_ascii_of_string a),
    <- (string_of_list_ascii_of_string b). now rewrite H.
Qed.

Lemma substring_0_short (m : nat) (s : string) :
  (String.length s <= m)%nat -> String.substring 0 m s = s.
Proof.
  intros H. apply chars_inj. rewrite chars_substring_0.
  apply take_ge. rewrite length_chars. exact H.
Qed.

(** X20. [sanitizeForStorage] returns at most 10000 characters, none of
    them NUL; it returns its input unchanged when that is already so, and
    applying it twice is applying it once. *)
Theorem sanitizeForStorage_bounds (input : string) :
  Js.length (sanitizeForStorage input) <= 10000
  /\ Forall (fun c => c <> Chars.nul) (chars (sanitizeForStorage input))
  /\ (Js.length input <= 10000 ->
      Forall (fun c => c <> Chars.nul) (chars input) ->
      sanitizeForStorage input = input)
  /\ sanitizeForStorage (sanitizeForStorage input) = sanitizeForStorage input.
Proof.
  assert (Hclean : forall s,
            Js.length s <= 10000 ->
            Forall (fun c => c <> Chars.nul) (chars s) ->
            sanitizeForStorage s = s).
  { intros s Hlen Hnul. unfold sanitizeForStorage. cbn zeta.
    rewrite removeAll_clean.
    - replace (Js.length s >? 10000) with false by (symmetry; lia). reflexivity.
    - eapply Forall_impl; [exact Hnul|]. intros c Hc. cbn.
      apply Ascii.eqb_neq. congruence. }
  assert (Hlen : Js.length (sanitizeForStorage input) <= 10000).
  { unfold sanitizeForStorage. cbn zeta.
    destruct (Js.length (removeAll _ input) >? 10000) eqn:Hbig; [|lia].
    unfold Js.length. rewrite <- length_chars, chars_substring_0, length_take.
    lia. }
  assert (Hnul : Forall (fun c => c <> Chars.nul) (chars (sanitizeForStorage input))).
  { assert (H0 : Forall (fun c => c <> Chars.nul)
                   (chars (removeAll (Ascii.eqb Chars.nul) input))).
    { rewrite chars_removeAll. apply Forall_forall. intros c Hc.
      apply list_elem_of_In, filter_In in Hc as (_ & Hc).
      apply negb_true_iff, Ascii.eqb_neq in Hc. congruence. }
    unfold sanitizeForStorage. cbn zeta.
    destruct (Js.length (removeAll _ input) >? 10000); [|exact H0].
    rewrite chars_substring_0. apply Forall_take, H0. }
  split; [exact Hlen|]. split; [exact Hnul|]. split; [apply Hclean|].
  apply Hclean; assumption.
Qed.

Lemma is_space_whitespace (c : ascii) : is_space c = true -> whitespace c = true.
Proof.
  unfold is_space, whitespace. cbv zeta. intros H. rewrite H. reflexivity.
Qed.

Lemma visible_not_space (c : ascii) : visible c = true -> is_space c = false.
Proof.
  unfold visible. intros H. apply andb_true_iff in H as (_ & H).
  apply negb_true_iff in H. destruct (is_space c) eqn:Hs; [|reflexivity].
  apply is_space_whitespace in Hs. congruence.
Qed.

Lemma visible_facts (c : ascii) :
  visible c = true -> controlChar c = false /\ whitespace c = false.
Proof.
  unfold visible. intros H. apply andb_true_iff in H as (H1 & H2).
  now apply negb_true_iff in H1, H2.
Qed.

Lemma looseFrom_weaken (s : string) :
  looseFrom true s = true -> looseFrom false s = true.
Proof.
  destruct s as [|c s]; cbn; [reflexivity|].
  destruct (Ascii.eqb c Chars.space); [discriminate | auto].
Qed.

Lemma tidyFrom_loose (b : bool) (s : string) :
  tidyFrom b s = true -> looseFrom b s = true.
Proof.
  revert b. induction s as [|c s IH]; intros b; cbn; [reflexivity|].
  destruct (Ascii.eqb c Chars.space); intros H;
    apply andb_true_iff in H as (H1 & H2); rewrite H1, (IH _ H2); reflexivity.
Qed.

Lemma collapseFrom_loose (b : bool) (s : string) :
  Forall (fun c => controlChar c = false) (chars s) ->
  looseFrom b (collapseFrom b s) = true.
Proof.
  revert b. induction s as [|c s IH]; intros b H; cbn; [reflexivity|].
  inversion H as [|? ? Hc Hs]; subst.
  destruct (whitespace c) eqn:Hw.
  - destruct b; [apply IH, Hs|]. cbn. apply IH, Hs.
  - cbn. destruct (Ascii.eqb_spec c Chars.space) as [->|_]; [discriminate Hw|].
    unfold visible. rewrite Hc, Hw. cbn. apply IH, Hs.
Qed.

Lemma trimStart_loose (s : string) :
  looseFrom false s = true -> looseFrom true (trimStart s) = true.
Proof.
  induction s as [|c s IH]; cbn [looseFrom trimStart]; [reflexivity|].
  destruct (Ascii.eqb_spec c Chars.space) as [->|Hne].
  - intros H. cbn in H. change (is_space Chars.space) with true. cbn iota.
    apply IH, looseFrom_weaken, H.
  - intros H. apply andb_true_iff in H as (Hv & Hs).
    rewrite (visible_not_space _ Hv). cbn [looseFrom].
    apply Ascii.eqb_neq in Hne. rewrite Hne, Hv. exact Hs.
Qed.

Lemma trimEnd_tidy (b : bool) (s : string) :
  looseFrom b s = true ->
  match trimEnd s with
  | EmptyString => True
  | r => tidyFrom b r = true
  end.
Proof.
  revert b. induction s as [|c s IH]; intros b; cbn [looseFrom trimEnd];
    [trivial|].
  destruct (Ascii.eqb_spec c Chars.space) as [->|Hne]; intros H;
    apply andb_true_iff in H as (H1 & H2); specialize (IH _ H2).
  - destruct (trimEnd s) as [|d r]; [cbn; trivial|].
    cbn [tidyFrom]. cbn [Ascii.eqb Chars.space Bool.eqb]. rewrite H1. exact IH.
  - apply Ascii.eqb_neq in Hne.
    destruct (trimEnd s) as [|d r].
    + rewrite (visible_not_space _ H1). cbn [tidyFrom]. rewrite Hne, H1.
      reflexivity.
    + cbn [tidyFrom]. rewrite Hne, H1. exact IH.
Qed.

Lemma tidyFrom_chars (b : bool) (s : string) :
  tidyFrom b s = true -> Forall (fun c => controlChar c = false) (chars s).
Proof.
  revert b. induction s as [|c s IH]; intros b; cbn; [constructor|].
  destruct (Ascii.eqb_spec c Chars.space) as [->|_]; intros H;
    apply andb_true_iff in H as (H1 & H2); constructor; eauto.
  apply (visible_facts _ H1).
Qed.

Lemma collapseFrom_tidy (b : bool) (s : string) :
  looseFrom b s = true -> collapseFrom b s = s.
Proof.
  revert b. induction s as [|c s IH]; intros b; cbn; [reflexivity|].
  destruct (Ascii.eqb_spec c Chars.space) as [->|_]; intros H;
    apply andb_true_iff in H as (H1 & H2).
  - cbn. apply negb_true_iff in H1. rewrite H1, (IH _ H2). reflexivity.
  - destruct (visible_facts _ H1) as (_ & ->). rewrite (IH _ H2). reflexivity.
Qed.

Lemma trimEnd_tidyFrom (b : bool) (s : string) :
  tidyFrom b s = true -> trimEnd s = s.
Proof.
  revert b. induction s as [|c s IH]; intros b; cbn [tidyFrom trimEnd];
    [reflexivity|].
  destruct (Ascii.eqb_spec c Chars.space) as [->|_]; intros H;
    apply andb_true_iff in H as (H1 & H2); rewrite (IH _ H2).
  - destruct s; [discriminate H2 | reflexivity].
  - destruct s; [|reflexivity]. rewrite (visible_not_space _ H1). reflexivity.
Qed.

(** X21. [sanitizeText] returns words of visible characters separated by
    single spaces: no control character, no white space but the space, no
    two spaces in a row, none at either end.  A text of that form comes
    back unchanged, so sanitizing twice is sanitizing once. *)
Theorem sanitizeText_tidy (text : string) :
  tidy (sanitizeText text) = true
  /\ (tidy text = true -> sanitizeText text = text)
  /\ sanitizeText (sanitizeText text) = sanitizeText text.
Proof.
  assert (Hout : tidy (sanitizeText text) = true).
  { unfold sanitizeText, trim. cbn zeta.
    assert (Hloose : looseFrom true
                       (trimStart (collapseFrom false
                                     (removeAll controlChar text))) = true).
    { apply trimStart_loose, collapseFrom_loose.
      rewrite chars_removeAll. apply Forall_forall. intros c Hc.
      apply list_elem_of_In, filter_In in Hc as (_ & Hc).
      now apply negb_true_iff in Hc. }
    pose proof (trimEnd_tidy _ _ Hloose) as H.
    unfold tidy. destruct (trimEnd _); [reflexivity | exact H]. }
  assert (Hid : forall s, tidy s = true -> sanitizeText s = s).
  { intros [|c s] Hs; [reflexivity|]. unfold tidy in Hs.
    unfold sanitizeText, trim. cbn zeta.
    rewrite removeAll_clean by (apply (tidyFrom_chars _ _ Hs)).
    rewrite collapseFrom_tidy
      by (apply looseFrom_weaken, tidyFrom_loose, Hs).
    assert (Hstart : trimStart (String c s) = String c s).
    { cbn in Hs |- *.
      destruct (Ascii.eqb_spec c Chars.space) as [->|_]; [discriminate Hs|].
      apply andb_true_iff in Hs as (Hv & _).
      now rewrite (visible_not_space _ Hv). }
    rewrite Hstart. apply (trimEnd_tidyFrom _ _ Hs). }
  split; [exact Hout|]. split; [apply Hid | apply Hid, Hout].
Qed.

End TextFacts.

(** ** What the scan pass leaves alone *)

Lemma elementAt_app (p r : Path) (d : Element) :
  elementAt (p ++ r) d
  = match elementAt p d with
    | Some e => elementAt r e
    | None => None
    end.
Proof.
  revert d. induction p as [|i p IH]; intros d; cbn; [reflexivity|].
  destruct (children d !! i); [apply IH | reflexivity].
Qed.

Lemma children_appendChild_length (r : Path) (child e : Element) :
  (List.length (children e) <= List.length (children (appendChild r child e)))%nat.
Proof.
  destruct r as [|i r]; cbn.
  - rewrite length_app. lia.
  - rewrite length_alter. lia.
Qed.

Lemma injectButton_keeps (d : Element) (p q : Path) (e : Element) :
  elementAt q d = Some e ->
  exists e',
    elementAt q (injectButton d p) = Some e'
    /\ tagName e' = tagName e /\ classList e' = classList e
    /\ (List.length (children e) <= List.length (children e'))%nat.
Proof.
  intros He. unfold injectButton.
  destruct (elementAt p d) as [box|]; [|eauto].
  destruct (hasButtonInjected box); [eauto|].
  destruct (elementAt_appendChild q (p ++ findInsertionPoint box) createButton
              d e He) as (e' & He' & [->|(r & _ & ->)]); [eauto|].
  exists (appendChild r createButton e). split; [exact He'|].
  split; [apply tagName_appendChild|]. split; [apply classList_appendChild|].
  apply children_appendChild_length.
Qed.

Lemma injectButton_matching (sel : Selector) (d : Element) (p : Path) :
  matching sel createButton = [] ->
  matching sel (injectButton d p) = matching sel d.
Proof.
  intros Hnone. unfold injectButton.
  destruct (elementAt p d) as [box|]; [|reflexivity].
  destruct (hasButtonInjected box); [reflexivity|].
  apply matching_appendChild_none, Hnone.
Qed.

Lemma injectButton_buttons (d : Element) (p : Path) :
  (List.length (matching aiReplyBtn d)
   <= List.length (matching aiReplyBtn (injectButton d p))
   <= List.length (matching aiReplyBtn d) + 1)%nat.
Proof.
  unfold injectButton.
  destruct (elementAt p d) as [box|] eqn:Hbox; [|lia].
  destruct (hasButtonInjected box); [lia|].
  rewrite length_matching_appendChild.
  - rewrite createButton_one_button. lia.
  - rewrite elementAt_app, Hbox. apply findInsertionPoint_elementAt.
Qed.

(** X22. The scan pass only adds.  Every element of the page is still at
    its place afterwards, with its tag and its classes and no child
    removed; no selector that matches nothing inside the button finds
    anything new or loses anything; and the number of buttons in the page
    grows by at most the number of comment boxes. *)
Theorem injectButtons_only_adds (document : Element) :
  (forall q e, elementAt q document = Some e ->
     exists e',
       elementAt q (injectButtons document) = Some e'
       /\ tagName e' = tagName e /\ classList e' = classList e
       /\ (List.length (children e) <= List.length (children e'))%nat)
  /\ (forall sel, matching sel createButton = [] ->
        matching sel (injectButtons document) = matching sel document)
  /\ (List.length (matching aiReplyBtn document)
      <= List.length (matching aiReplyBtn (injectButtons document))
      <= List.length (matching aiReplyBtn document)
         + List.length (findCommentBoxes document))%nat.
Proof.
  unfold injectButtons. generalize (findCommentBoxes document) as boxes.
  intros boxes. revert document.
  induction boxes as [|p boxes IH]; intros d; cbn [fold_left].
  - split; [eauto|]. split; [reflexivity|]. cbn; lia.
  - destruct (IH (injectButton d p)) as (Hkeep & Hsel & Hcount).
    split; [|split].
    + intros q e He.
      destruct (injectButton_keeps d p q e He) as (e1 & He1 & Ht1 & Hc1 & Hk1).
      destruct (Hkeep q e1 He1) as (e2 & He2 & Ht2 & Hc2 & Hk2).
      exists e2. split; [exact He2|].
      split; [congruence|]. split; [congruence | lia].
    + intros sel Hnone. rewrite (Hsel sel Hnone).
      apply injectButton_matching, Hnone.
    + pose proof (injectButton_buttons d p). cbn [List.length]. lia.
Qed.

(** ** The states of the button *)

Lemma array_includes_In (xs : list string) (x : string) :
  array_includes xs x = true <-> In x xs.
Proof.
  unfold array_includes. rewrite existsb_exists. split.
  - intros (y & Hy & Heq). apply String.eqb_eq in Heq. now subst.
  - intros H. exists x. split; [exact H | apply String.eqb_refl].
Qed.

Lemma classListAdd_keeps (name other : string) (classes : list string) :
  array_includes classes other = true ->
  array_includes (Button.classListAdd name classes) other = true.
Proof.
  unfold Button.classListAdd. destruct (array_includes classes name); [auto|].
  rewrite !array_includes_In, in_app_iff. auto.
Qed.

Lemma classListRemove_keeps (name other : string) (classes : list string) :
  other <> name ->
  array_includes classes other = true ->
  array_includes (Button.classListRemove name classes) other = true.
Proof.
  unfold Button.classListRemove. rewrite !array_includes_In, filter_In.
  intros Hne H. split; [exact H|]. apply negb_true_iff, String.eqb_neq, Hne.
Qed.

Lemma classListRemove_absent (name : string) (classes : list string) :
  array_includes classes name = false ->
  Button.classListRemove name classes = classes.
Proof.
  unfold Button.classListRemove, array_includes.
  induction classes as [|c classes IH]; cbn; [reflexivity|].
  intros H. apply orb_false_iff in H as (Hc & Hrest).
  rewrite String.eqb_sym, Hc. cbn. now rewrite IH.
Qed.

Lemma classListRemove_Add (name : string) (classes : list string) :
  array_includes classes name = false ->
  Button.classListRemove name (Button.classListAdd name classes) = classes.
Proof.
  intros H. unfold Button.classListAdd. rewrite H.
  unfold Button.classListRemove. rewrite List.filter_app. cbn.
  rewrite String.eqb_refl. cbn. rewrite app_nil_r.
  apply (classListRemove_absent name classes H).
Qed.

Lemma removeAttribute_set (name value : string) (attrs : list (string * string)) :
  existsb (fun kv => String.eqb (fst kv) name) attrs = false ->
  Button.removeAttribute name (Button.setAttribute name value attrs) = attrs.
Proof.
  intros H. unfold Button.setAttribute. rewrite H.
  unfold Button.removeAttribute. rewrite List.filter_app. cbn.
  rewrite String.eqb_refl. cbn. rewrite app_nil_r.
  induction attrs as [|kv attrs IH]; cbn in *; [reflexivity|].
  apply orb_false_iff in H as (Hkv & Hrest). rewrite Hkv. cbn. now rewrite IH.
Qed.

(** X23. No state change removes the marker.  Whatever sequence of loading,
    error and success changes and of their timers a button goes through,
    it keeps its tag and the class [ai-reply-btn], so the selector by
    which [hasButtonInjected] finds it still matches. *)
Theorem button_keeps_marker (button : Button.t) (history : list Button.Step) :
  aiReplyBtn (tagName (Button.node button)) (classList (Button.node button)) = true ->
  let after := Button.steps button history in
  tagName (Button.node after) = tagName (Button.node button)
  /\ aiReplyBtn (tagName (Button.node after)) (classList (Button.node after)) = true.
Proof.
  unfold aiReplyBtn, byClass. cbn zeta. unfold Button.steps.
  revert button. induction history as [|s history IH]; intros button H; cbn [fold_left];
    [auto|].
  assert (Hstep :
    tagName (Button.node (Button.step button s)) = tagName (Button.node button)
    /\ array_includes (classList (Button.node (Button.step button s)))
         "ai-reply-btn" = true).
  { destruct s as [[]|[]| | |];
      cbn [Button.step Button.setButtonLoading Button.setButtonError
           Button.errorTimeout Button.setButtonSuccess Button.successTimeout
           Button.withClasses Button.node tagName classList];
      (split; [reflexivity|]);
      first [ apply classListAdd_keeps, H
            | apply classListRemove_keeps; [discriminate | exact H] ]. }
  destruct Hstep as (Htag & Hclass).
  destruct (IH _ Hclass) as (Htag' & Hclass'). split; [congruence | exact Hclass'].
Qed.

(** X24. The states undo each other.  From a button at rest, loading
    and then not loading gives the button back as it was (its elements,
    classes, attributes and [disabled]), and so does a whole failed
    click as [handleButtonClick] runs it: loading, not loading, the
    error state and its timer.  While it is loading the button is
    disabled. *)
Theorem button_round_trip (button : Button.t) :
  Button.idle button ->
  Button.disabled (Button.setButtonLoading true button) = true
  /\ Button.setButtonLoading false (Button.setButtonLoading true button) = button
  /\ Button.errorTimeout (Button.setButtonError true button) = button
  /\ Button.steps button
       [Button.Loading true; Button.Loading false; Button.Failed true;
        Button.FailedTimeout] = button.
Proof.
  intros (Hdis & Hkids & Hload & Herr & Hbusy).
  assert (H1 : Button.setButtonLoading false (Button.setButtonLoading true button)
               = button).
  { destruct button as [[tag classes kids] dis attrs].
    cbn [Button.node Button.disabled Button.attributes classList children]
      in Hdis, Hkids, Hload, Hbusy.
    unfold Button.setButtonLoading.
    cbn [Button.node Button.disabled Button.attributes tagName classList children].
    rewrite (classListRemove_Add _ _ Hload), (removeAttribute_set _ _ _ Hbusy).
    subst. reflexivity. }
  assert (H2 : Button.errorTimeout (Button.setButtonError true button) = button).
  { destruct button as [[tag classes kids] dis attrs].
    cbn [Button.node classList] in Herr.
    unfold Button.errorTimeout, Button.setButtonError, Button.withClasses.
    cbn [Button.node Button.disabled Button.attributes tagName classList children].
    rewrite (classListRemove_Add _ _ Herr). reflexivity. }
  split; [reflexivity|]. split; [exact H1|]. split; [exact H2|].
  unfold Button.steps. cbn [fold_left Button.step]. rewrite H1. exact H2.
Qed.

(** ** Typing into the comment box *)

Lemma substring_0_0 (s : string) : String.substring 0 0 s = EmptyString.
Proof. now destruct s. Qed.

Lemma substring_0_length (s : string) : String.substring 0 (String.length s) s = s.
Proof. induction s as [|c s IH]; cbn; [reflexivity | now rewrite IH]. Qed.

Lemma string_append_assoc (a b c : string) :
  ((a ++ b) ++ c = a ++ (b ++ c))%string.
Proof. induction a as [|x a IH]; cbn; [reflexivity | now rewrite IH]. Qed.

Lemma flat_map_seq_shift {A : Type} (f : nat -> list A) (a n : nat) :
  flat_map f (seq (S a) n) = flat_map (fun k => f (S k)) (seq a n).
Proof.
  revert a. induction n as [|n IH]; intros a; cbn; [reflexivity|].
  now rewrite IH.
Qed.

Lemma typeCharacters_run (text : string) (element : Typing.Editable) :
  let after := Typing.typeCharacters text element in
  Typing.textContent after = (Typing.textContent element ++ text)%string
  /\ Typing.focused after = Typing.focused element
  /\ Typing.dispatched after
     = Typing.dispatched element
       ++ flat_map (fun k =>
            [Typing.input (Typing.textContent element
                           ++ String.substring 0 k text)%string;
             Typing.keyup])
          (seq 1 (String.length text)).
Proof.
  cbn zeta. revert element.
  induction text as [|char rest IH]; intros [content foc events].
  - cbn. rewrite app_nil_r. repeat split.
    clear. induction content as [|c s IH]; cbn; [reflexivity | now rewrite <- IH].
  - cbn [Typing.typeCharacters].
    match goal with |- context [Typing.typeCharacters rest ?e] =>
      destruct (IH e) as (Htext & Hfoc & Hev) end.
    rewrite Htext, Hfoc, Hev. clear Htext Hfoc Hev IH.
    cbn [Typing.textContent Typing.focused Typing.dispatched
         Typing.setTextContent Typing.fireInputEvents Typing.fireEvent
         Typing.dispatchEvent]. cbn [String.eqb Ascii.eqb Bool.eqb orb].
    cbn [default Typing.o_bubbles Typing.o_cancelable Typing.o_data
         Typing.o_inputType].
    split; [apply string_append_assoc|]. split; [reflexivity|].
    cbn [String.length seq flat_map]. rewrite (flat_map_seq_shift _ 1).
    rewrite <- !app_assoc. f_equal. cbn [app String.substring].
    rewrite substring_0_0. f_equal. f_equal.
    apply flat_map_ext. intros k. now rewrite string_append_assoc.
Qed.

(** X25. What typing dispatches.  [simulateTyping] leaves the element
    focused and holding exactly [text], whatever it held before.  On the
    way it dispatches a focus event, then for every k from 1 to the
    length of the text an input event carrying the first k characters
    followed by a keyup, then change and blur. *)
Theorem simulateTyping_events (text : string) (element : Typing.Editable) :
  let after := Typing.simulateTyping text element in
  Typing.textContent after = text
  /\ Typing.focused after = true
  /\ Typing.dispatched after
     = Typing.dispatched element
       ++ Typing.plain "focus"
          :: flat_map (fun k =>
               [Typing.input (String.substring 0 k text); Typing.keyup])
             (seq 1 (String.length text))
          ++ [Typing.plain "change"; Typing.plain "blur"].
Proof.
  cbn zeta. unfold Typing.simulateTyping.
  match goal with |- context [Typing.typeCharacters text ?e] =>
    destruct (typeCharacters_run text e) as (Htext & Hfoc & Hev);
    destruct (Typing.typeCharacters text e) as [content foc events] end.
  cbn in Htext, Hfoc, Hev. subst. cbn. repeat split.
  rewrite <- !app_assoc. reflexivity.
Qed.

(** X26. The two ways of inserting agree on the outcome.  With a
    textarea found, [insertTextIntoCommentBox] reports success in either
    mode and leaves the textarea focused and holding [text]; the events
    it adds start with focus and, for a text that is not empty, end with
    an input event carrying the whole text, keyup, change and blur.
    With no textarea it reports failure. *)
Theorem insertTextIntoCommentBox_modes (textarea : Typing.Editable)
  (text : string) (useTypingSimulation : bool) :
  Typing.insertTextIntoCommentBox None text useTypingSimulation = (false, None)
  /\ exists after,
       Typing.insertTextIntoCommentBox (Some textarea) text useTypingSimulation
         = (true, Some after)
       /\ Typing.textContent after = text
       /\ Typing.focused after = true
       /\ (text <> EmptyString ->
           exists typed,
             Typing.dispatched after
             = Typing.dispatched textarea
               ++ Typing.plain "focus" :: typed
               ++ [Typing.input text; Typing.keyup;
                   Typing.plain "change"; Typing.plain "blur"]).
Proof.
  split; [reflexivity|]. destruct useTypingSimulation.
  - exists (Typing.simulateTyping text textarea). split; [reflexivity|].
    unfold Typing.simulateTyping.
    match goal with |- context [Typing.typeCharacters text ?e] =>
      destruct (typeCharacters_run text e) as (Htext & Hfoc & Hev);
      destruct (Typing.typeCharacters text e) as [content foc events] end.
    cbn in Htext, Hfoc, Hev. subst. cbn. repeat split. intros Hne.
    destruct text as [|c rest]; [contradiction|].
    cbn [String.length]. rewrite seq_S, flat_map_app.
    cbn [flat_map Nat.add]. rewrite app_nil_r.
    change (S (String.length rest)) with (String.length (String c rest)).
    rewrite substring_0_length.
    exists (flat_map (fun k =>
              [Typing.input (String.substring 0 k (String c rest)); Typing.keyup])
              (seq 1 (String.length rest))).
    rewrite <- !app_assoc. reflexivity.
  - exists (Typing.fastInsert text textarea). split; [reflexivity|].
    split; [reflexivity|]. split; [reflexivity|]. intros _. exists [].
    cbn. rewrite <- !app_assoc. reflexivity.
Qed.

(** ** The further statements at sample inputs *)

Lemma resetUsage_resets_witness :
  let w := sampleWorld (Some usedUp) 1000 thanks in
  let fresh := {| count := 0; resetDate := time w + 24 * 60 * 60 * 1000;
                  limit := 5 |} in
  reliable w
  /\ exists w', resetUsage w = (Ok fresh, w') /\ local_usage w' = Some fresh.
Proof.
  intros w fresh. split; [apply sampleWorld_reliable|].
  destruct (resetUsage_resets w (sampleWorld_reliable _ _ _))
    as (w' & Hrun & Hstored & _).
  exists w'. split; [exact Hrun | exact Hstored].
Defined.

Lemma resetUsage_then_trackUsage_witness :
  let w := sampleWorld (Some usedUp) 1000 thanks in
  1 <= limit usedUp
  /\ exists w',
       trackUsage (snd (resetUsage w))
       = (Ok {| count := 1; resetDate := time w + 24 * 60 * 60 * 1000;
                limit := 5 |}, w').
Proof.
  intros w. split; [cbn; lia|].
  destruct (resetUsage_then_trackUsage w usedUp eq_refl
              (sampleWorld_reliable _ _ _)) as (w' & Hrun & _);
    [cbn; lia | cbn; lia |].
  exists w'. exact Hrun.
Defined.

Lemma checkRateLimit_agrees_with_trackUsage_witness :
  let w := sampleWorld (Some usedUp) 1000 thanks in
  exists status wc e,
    checkRateLimit w = (Ok status, wc)
    /\ Status.limitReached status = true
    /\ trackUsage w = (Throw e, wc).
Proof.
  intros w. pose proof (checkRateLimit_agrees_with_trackUsage w) as H.
  destruct (checkRateLimit w) as [[status|e] wc] eqn:Hc.
  - destruct H as (usage & w1 & _ & _ & _ & _ & _ & Hdenied & _).
    assert (Hreached : Status.limitReached status = true).
    { vm_compute in Hc. injection Hc as <- <-. reflexivity. }
    exists status, wc. eexists. split; [reflexivity|].
    split; [exact Hreached | exact (Hdenied Hreached)].
  - vm_compute in Hc. discriminate Hc.
Defined.

Lemma getRemainingUsage_agrees_with_checkRateLimit_witness :
  let w := sampleWorld (Some partlyUsed) 1000 thanks in
  exists remaining w',
    getRemainingUsage w = (Ok remaining, w') /\ 0 <= remaining.
Proof.
  intros w.
  destruct (getRemainingUsage_agrees_with_checkRateLimit w)
    as (remaining & w' & Hrun & Hpos & _).
  exists remaining, w'. split; [exact Hrun | exact Hpos].
Defined.

Lemma wouldExceedLimit_agrees_witness :
  let w := sampleWorld (Some partlyUsed) 1000 thanks in
  exists answer w', wouldExceedLimit 4 w = (Ok answer, w').
Proof.
  intros w.
  destruct (wouldExceedLimit_agrees 4 w) as (answer & w' & Hrun & _).
  exists answer, w'. exact Hrun.
Defined.

Lemma trackUsage_lowers_remaining_witness :
  let w := sampleWorld (Some partlyUsed) 1000 thanks in
  count partlyUsed < limit partlyUsed
  /\ exists w1 w2 w3,
       getRemainingUsage w = (Ok 3, w1)
       /\ trackUsage w = (Ok (increment partlyUsed), w2)
       /\ getRemainingUsage w2 = (Ok 2, w3).
Proof.
  intros w. split; [cbn; lia|].
  apply (trackUsage_lowers_remaining w partlyUsed eq_refl
           (sampleWorld_reliable _ _ _)).
  - apply sampleWorld_before. cbn. lia.
  - cbn. lia.
Defined.

Lemma updateRateLimit_sets_limit_only_witness :
  let w := sampleWorld (Some partlyUsed) 1000 thanks in
  updateRateLimit 0 w = (Throw (Error "Rate limit must be at least 1"%string), w)
  /\ exists w',
       updateRateLimit 20000 w = (Ok tt, w')
       /\ local_usage w'
          = Some {| count := 2; resetDate := 86401000; limit := 20000 |}.
Proof.
  intros w.
  destruct (updateRateLimit_sets_limit_only 0 w partlyUsed eq_refl
              (sampleWorld_reliable _ _ _)) as (Hlow & _).
  destruct (updateRateLimit_sets_limit_only 20000 w partlyUsed eq_refl
              (sampleWorld_reliable _ _ _)) as (_ & Hhigh).
  split; [apply Hlow; lia|].
  destruct Hhigh as (w' & Hrun & Hstored & _); [lia|].
  exists w'. split; [exact Hrun | exact Hstored].
Defined.

Lemma updateRateLimit_then_trackUsage_witness :
  let w := sampleWorld (Some partlyUsed) 1000 thanks in
  let w1 := snd (updateRateLimit 1 w) in
  local_usage w1 = Some {| count := 2; resetDate := 86401000; limit := 1 |}
  /\ denied (fst (trackUsage w1)).
Proof.
  intros w w1.
  destruct (updateRateLimit_then_trackUsage 1 w partlyUsed eq_refl
              (sampleWorld_reliable _ _ _)) as (Hstored & _ & Hdenied);
    [apply sampleWorld_before; cbn; lia | lia |].
  split; [exact Hstored|]. apply Hdenied. cbn. lia.
Defined.

Lemma updateUsageLimit_syncs_limit_witness :
  let old := {| count := 2; resetDate := 86401000; limit := 50 |} in
  let w := sampleWorld (Some old) 1000 thanks in
  exists w',
    updateUsageLimit w = (Ok tt, w')
    /\ local_usage w' = Some partlyUsed
    /\ ledgerWrites (trace w') = [LocalSet partlyUsed]
    /\ ledgerWrites (trace (snd (updateUsageLimit w'))) = [LocalSet partlyUsed].
Proof.
  intros old w.
  destruct (updateUsageLimit_syncs_limit w old eq_refl
              (sampleWorld_reliable _ _ _))
    as (w' & Hrun & Hstored & Hwrites & Hagain & _).
  exists w'. split; [exact Hrun|]. split; [exact Hstored|].
  split; [exact Hwrites|]. rewrite Hagain. exact Hwrites.
Defined.

Lemma saveSettings_keeps_window_limit_witness :
  let tight := {| count := 3; resetDate := 86401000; limit := 3 |} in
  let w := sampleWorld (Some tight) 1000 thanks in
  let w1 := snd (saveSettings sampleSettings w) in
  validateSettings (as_partial sampleSettings) = Ok tt
  /\ rateLimit (storedSettings w1) = 5
  /\ local_usage w1 = Some tight
  /\ denied (fst (trackUsage w1)).
Proof.
  intros tight w w1. split; [reflexivity|].
  destruct (saveSettings_keeps_window_limit sampleSettings w tight eq_refl
              eq_refl (sampleWorld_reliable _ _ _))
    as (Hsaved & Hstored & Hdenied & _);
    [apply sampleWorld_before; cbn; lia|].
  split; [fold w1 in Hsaved; now rewrite Hsaved|].
  split; [exact Hstored|]. apply Hdenied. cbn. lia.
Defined.

Lemma saveSettings_failure_witness :
  let w := sampleWorld None 1000 thanks in
  exists e w',
    saveSettings rudeSettings w = (Throw e, w')
    /\ e = Error "Failed to save settings"%string
    /\ sync_settings w' = sync_settings w.
Proof.
  intros w. eexists _, _. split; [reflexivity|].
  destruct (saveSettings_failure rudeSettings w _ _ eq_refl) as (He & Hsync & _).
  split; [exact He | exact Hsync].
Defined.

Lemma handleToneChange_changes_tone_only_witness :
  let w := sampleWorld None 1000 thanks in
  validateSettings (as_partial (storedSettings w)) = Ok tt
  /\ exists w',
       handleToneChange "concise" w = (Ok tt, w')
       /\ storedSettings w' = with_tone "concise" sampleSettings.
Proof.
  intros w. split; [reflexivity|].
  destruct (handleToneChange_changes_tone_only "concise" w
              (sampleWorld_reliable _ _ _) eq_refl)
    as (w' & Hrun & _ & Hvalid & _).
  exists w'. split; [exact Hrun|]. apply Hvalid. reflexivity.
Defined.

Lemma handleToneChange_after_failed_read_witness :
  apiKey (storedSettings flakyWorld) = apiKey sampleSettings
  /\ exists w',
       handleToneChange "concise" flakyWorld = (Ok tt, w')
       /\ apiKey (storedSettings w') = EmptyString.
Proof.
  split; [reflexivity|].
  destruct (handleToneChange_after_failed_read "concise" flakyWorld
              (Error "storage unavailable") eq_refl eq_refl eq_refl)
    as (w' & Hrun & Hstored).
  exists w'. split; [exact Hrun|]. now rewrite Hstored.
Defined.

Lemma onMessage_dispatch_witness :
  let w := sampleWorld None 1000 thanks in
  (exists response w',
     onMessage trim (mkMessage "GENERATE_REPLY" sampleRequest) w
     = (Ok (true, [ReplyResponse response]), w'))
  /\ onMessage trim (mkMessage "PING" sampleRequest) w = (Ok (false, []), w).
Proof.
  intros w. split.
  - destruct (onMessage_dispatch trim (mkMessage "GENERATE_REPLY" sampleRequest) w)
      as (Hreply & _).
    destruct (Hreply eq_refl) as (response & w' & _ & Hrun).
    exists response, w'. exact Hrun.
  - destruct (onMessage_dispatch trim (mkMessage "PING" sampleRequest) w)
      as (_ & _ & Hother).
    apply Hother; discriminate.
Defined.



Lemma escapeHtml_markup_free_witness :
  Forall (fun c => markupChar c = false) (chars (escapeHtml markup))
  /\ escapeHtml "Tom and Jerry" = "Tom and Jerry"%string.
Proof.
  split; [apply (escapeHtml_markup_free markup)|].
  destruct (escapeHtml_markup_free "Tom and Jerry") as (_ & Hplain & _).
  apply Hplain. vm_compute. repeat constructor.
Defined.

Lemma escapeHtml_injective_witness :
  escapeHtml markup = escapeHtml ("<b>Tom " ++ "& Jerry</b>")%string
  /\ markup = ("<b>Tom " ++ "& Jerry</b>")%string.
Proof.
  split; [reflexivity|]. apply escapeHtml_injective. reflexivity.
Defined.

Lemma sanitizeForStorage_bounds_witness :
  Js.length markup <= 10000
  /\ sanitizeForStorage markup = markup.
Proof.
  split; [vm_compute; discriminate|].
  destruct (sanitizeForStorage_bounds markup) as (_ & _ & Hsame & _).
  apply Hsame; [vm_compute; discriminate|].
  vm_compute. repeat (constructor; try discriminate).
Defined.

Lemma sanitizeText_tidy_witness :
  tidy "Tom and Jerry" = true
  /\ sanitizeText "Tom and Jerry" = "Tom and Jerry"%string.
Proof.
  split; [reflexivity|].
  destruct (sanitizeText_tidy "Tom and Jerry") as (_ & Hsame & _).
  apply Hsame. reflexivity.
Defined.

Lemma injectButtons_only_adds_witness :
  matching commentBox createButton = []
  /\ findCommentBoxes (injectButtons nestedPage) = findCommentBoxes nestedPage
  /\ exists e',
       elementAt [0%nat] (injectButtons nestedPage) = Some e'
       /\ classList e' = ["comments-comment-box"%string].
Proof.
  destruct (injectButtons_only_adds nestedPage) as (Hkeeps & Hsel & _).
  split; [reflexivity|]. split; [apply (Hsel commentBox); reflexivity|].
  destruct (Hkeeps [0%nat] _ eq_refl) as (e' & Hat & _ & Hclasses & _).
  exists e'. split; [exact Hat | exact Hclasses].
Defined.

Lemma button_keeps_marker_witness :
  let after :=
    Button.steps Button.create
      [Button.Loading true; Button.Failed true; Button.Loading false;
       Button.Succeeded; Button.FailedTimeout; Button.SucceededTimeout] in
  aiReplyBtn (tagName (Button.node Button.create))
    (classList (Button.node Button.create)) = true
  /\ aiReplyBtn (tagName (Button.node after)) (classList (Button.node after))
     = true.
Proof.
  intros after. split; [reflexivity|].
  apply (button_keeps_marker Button.create). reflexivity.
Defined.

Lemma button_round_trip_witness :
  Button.idle Button.create
  /\ Button.setButtonLoading false (Button.setButtonLoading true Button.create)
     = Button.create.
Proof.
  assert (Hidle : Button.idle Button.create) by (repeat split; reflexivity).
  split; [exact Hidle|]. apply (button_round_trip Button.create Hidle).
Defined.

Lemma insertTextIntoCommentBox_modes_witness :
  exists after typed,
    Typing.insertTextIntoCommentBox (Some draftTextarea) "Hi" true
    = (true, Some after)
    /\ Typing.textContent after = "Hi"%string
    /\ Typing.dispatched after
       = Typing.plain "focus" :: typed
         ++ [Typing.input "Hi"; Typing.keyup;
             Typing.plain "change"; Typing.plain "blur"].
Proof.
  destruct (insertTextIntoCommentBox_modes draftTextarea "Hi" true)
    as (_ & after & Hrun & Htext & _ & Hevents).
  destruct Hevents as (typed & Hevents); [discriminate|].
  exists after, typed. split; [exact Hrun|]. split; [exact Htext|].
  exact Hevents.
Defined.
